(** * rnsec: the scan cache and the rule engine

    A shallow embedding of [src/core/cache.ts] (class [ScanCache]) and of
    [src/core/ruleEngine.ts] (class [RuleEngine]), and the properties of the
    scan orchestration core that follow from the code.

    Conventions.
    - A JS object used as a dictionary ([CacheData.files]) is a [gmap] keyed
      by the file path; a JS [Set<string>] is a [gset string]. Keys are
      file-system paths: the properties an object literal inherits from
      [Object.prototype] are not modelled. Where a statement would differ
      at such a name ([ScanCache.prototypeNames]), it excludes the name by
      a hypothesis.
    - [Date.now()] is an explicit argument of every operation that reads the
      clock; times are integers (milliseconds).
    - A value that may be [null]/[undefined] is an [option].
    - Collaborators whose code lives outside the two classes (the file
      reader, the parsers, the digest, the debug-context classifier) are
      the fields of the class [Collaborators]. *)

From Stdlib Require Import ZArith Ascii String List Bool Lia.
From stdpp Require Import base option list gmap sets strings fin_maps.

Local Open Scope string_scope.
Local Open Scope list_scope.

(** ** Findings ([types/findings.ts], as used by the two classes) *)

Inductive Severity := CRITICAL | HIGH | MEDIUM | LOW.

Module Finding.
Record t := mk {
  ruleId : string;
  description : string;
  severity : Severity;
  filePath : string;
  line : option Z;
  snippet : option string;
  suggestion : option string
}.
End Finding.

(** ** External collaborators

    What the two classes import from elsewhere. The engine treats every one
    of them as a black box. *)

(** The four buckets [walkProjectFiles] returns. *)
Module FileGroup.
Record t := mk {
  jsFiles : list string;
  jsonFiles : list string;
  xmlFiles : list string;
  plistFiles : list string
}.
End FileGroup.

Class Collaborators := {
  (** the Babel syntax tree and a parsed JSON value *)
  AST : Type;
  Json : Type;
  (** JS truthiness of a parsed JSON value *)
  truthy : Json → bool;
  (** [createHash('sha256').update(content).digest('hex')] *)
  sha256hex : string → string;
  (** [utils/fileUtils]: the text of the file, or [None] when the read throws *)
  readFileContent : string → option string;
  (** [core/astParser]: [Some ast] when [parseResult.success] *)
  parseJSFile : string → string → option AST;
  (** [core/astParser]: the parsed value, [None] for the [null] of a failure *)
  parseJsonSafe : string → option Json;
  (** [utils/stringUtils]: [isInDebugContext(code, snippet, filePath)] *)
  isInDebugContext : string → option string → string → bool;
  (** [core/fileWalker]: [walkProjectFiles(rootDir, exclude)] *)
  walkProjectFiles : string → list string → FileGroup.t
}.

(** ** Cache data ([cache.ts], interfaces [CacheEntry] and [CacheData]) *)

Module CacheEntry.
Record t := mk {
  hash : string;               (* SHA-256 hash of file content *)
  findings : list Finding.t;   (* findings from the last scan *)
  timestamp : Z;               (* when the file was scanned *)
  version : string             (* version of rnsec that created the entry *)
}.
End CacheEntry.

Module CacheData.
Record t := mk {
  files : gmap string CacheEntry.t;
  createdAt : Z;
  updatedAt : Z
}.
End CacheData.

Definition DEFAULT_CACHE_FILE : string := ".rnsec-cache.json".

(** [path.join] of Node, without its normalisation of the result: nothing
    below depends on where the cache file lives. *)
Definition join (dir name : string) : string := dir ++ "/" ++ name.

(** ** class ScanCache *)

Module ScanCache.

Record t := mk {
  cacheFile : string;
  cache : CacheData.t;
  version : string;
  isDirty : bool;
  enabled : bool
}.

Definition with_cache (c : t) (d : CacheData.t) : t :=
  mk (cacheFile c) d (version c) (isDirty c) (enabled c).

Definition with_files (c : t) (fs : gmap string CacheEntry.t) : t :=
  with_cache c
    (CacheData.mk fs (CacheData.createdAt (cache c)) (CacheData.updatedAt (cache c))).

Definition with_isDirty (c : t) (b : bool) : t :=
  mk (cacheFile c) (cache c) (version c) b (enabled c).

(** The two arguments are the two readings of the clock. *)
Definition createEmptyCache (now now' : Z) : CacheData.t :=
  CacheData.mk ∅ now now'.

(** [constructor(projectDir, version, cacheFileName = DEFAULT_CACHE_FILE)] *)
Definition new (projectDir version cacheFileName : string) (now now' : Z) : t :=
  mk (join projectDir cacheFileName) (createEmptyCache now now') version false true.

(** What [readFile] followed by [JSON.parse] yields in [load]. [Stored]
    stands for a file whose [files] is a dictionary of entries, as the
    interface [CacheData] has it. A file with [files: null] also passes the
    test [typeof data.files === 'object']; it has no [CacheData] to stand
    for it and is outside this type. *)
Inductive Persisted :=
| Unreadable                      (* readFile or JSON.parse throws *)
| WrongShape                      (* parsed, but [files] is not an object *)
| Stored (data : CacheData.t).    (* parsed, with an object under [files] *)

Definition load (c : t) (disk : Persisted) (now now' : Z) : t :=
  if negb (enabled c) then c
  else match disk with
       | Stored data => with_cache c data
       | WrongShape => c
       | Unreadable => with_cache c (createEmptyCache now now')
       end.

(** [writeOk] tells whether [mkdir] and [writeFile] succeed; the written
    bytes are not modelled. [updatedAt] is assigned before the write is
    attempted. *)
Definition save (c : t) (now : Z) (writeOk : bool) : t :=
  if negb (enabled c) || negb (isDirty c) then c
  else
    let c' := with_cache c
                (CacheData.mk (CacheData.files (cache c))
                              (CacheData.createdAt (cache c)) now) in
    if writeOk then with_isDirty c' false else c'.

Definition getContentHash `{Collaborators} (c : t) (content : string) : string :=
  sha256hex content.

Definition isValid (c : t) (filePath contentHash : string) : bool :=
  if negb (enabled c) then false
  else match CacheData.files (cache c) !! filePath with
       | None => false
       | Some entry =>
           if negb (String.eqb (CacheEntry.hash entry) contentHash) then false
           else if negb (String.eqb (CacheEntry.version entry) (version c)) then false
           else true
       end.

(** [None] is the [null] of the source. *)
Definition getFindings (c : t) (filePath : string) : option (list Finding.t) :=
  if negb (enabled c) then None
  else match CacheData.files (cache c) !! filePath with
       | None => None
       | Some entry => Some (CacheEntry.findings entry)
       end.

(** The assignment [this.cache.files[filePath] = {...}] creates or
    overwrites the own key [filePath], for every path but ["__proto__"]:
    on the plain object of the source that one assignment replaces the
    prototype of the dictionary and creates no own key, so that
    [Object.keys] does not list it. Here it is a key like any other. *)
Definition set (c : t) (filePath contentHash : string)
    (findings : list Finding.t) (now : Z) : t :=
  if negb (enabled c) then c
  else
    with_isDirty
      (with_files c
         (<[filePath := CacheEntry.mk contentHash findings now (version c)]>
            (CacheData.files (cache c))))
      true.

(** The test [if (this.cache.files[filePath])] is a test for an entry
    under [filePath], for every path that does not name a member of
    [Object.prototype] (see [prototypeNames] below); at such a name the
    source finds the inherited member, which is truthy. *)
Definition remove (c : t) (filePath : string) : t :=
  match CacheData.files (cache c) !! filePath with
  | Some _ =>
      with_isDirty (with_files c (delete filePath (CacheData.files (cache c)))) true
  | None => c
  end.

Definition clear (c : t) (now now' : Z) : t :=
  with_isDirty (with_cache c (createEmptyCache now now')) true.

Definition getStats (c : t) : nat := size (CacheData.files (cache c)).

Definition setEnabled (c : t) (b : bool) : t :=
  mk (cacheFile c) (cache c) (version c) (isDirty c) b.

Definition isEnabled (c : t) : bool := enabled c.

(** [7 * 24 * 60 * 60 * 1000], the default of [maxAgeMs]. *)
Definition DEFAULT_MAX_AGE_MS : Z := 7 * 24 * 60 * 60 * 1000.

(** The local variables of the loop of [prune]: the dictionary being
    mutated, the counter and the dirty flag. *)
Record PruneLoop := loop {
  loop_files : gmap string CacheEntry.t;
  pruned : nat;
  dirty : bool
}.

(** One iteration of the loop body. [None] is the [TypeError] that
    [entry.timestamp] raises on an undefined [entry]; the left operand of
    [||] is evaluated first and short-circuits. *)
Definition prune_body (existingFiles : gset string) (cutoffTime : Z)
    (st : PruneLoop) (filePath : string) : option PruneLoop :=
  let entry := loop_files st !! filePath in
  let removed := loop (delete filePath (loop_files st)) (S (pruned st)) true in
  if negb (bool_decide (filePath ∈ existingFiles)) then Some removed
  else match entry with
       | None => None
       | Some e =>
           if (CacheEntry.timestamp e <? cutoffTime)%Z then Some removed
           else Some st
       end.

Fixpoint prune_loop (existingFiles : gset string) (cutoffTime : Z)
    (keys : list string) (st : PruneLoop) : option PruneLoop :=
  match keys with
  | [] => Some st
  | filePath :: rest =>
      match prune_body existingFiles cutoffTime st filePath with
      | None => None
      | Some st' => prune_loop existingFiles cutoffTime rest st'
      end
  end.

(** [Object.keys(this.cache.files)]: the own keys, taken once before the
    loop starts. *)
Definition keys (c : t) : list string := (map_to_list (CacheData.files (cache c))).*1.

Definition prune (c : t) (existingFiles : gset string) (maxAgeMs now : Z)
    : option (t * nat) :=
  let cutoffTime := (now - maxAgeMs)%Z in
  match prune_loop existingFiles cutoffTime (keys c)
          (loop (CacheData.files (cache c)) 0 (isDirty c)) with
  | None => None
  | Some st => Some (with_isDirty (with_files c (loop_files st)) (dirty st), pruned st)
  end.

(** Whether the loop of [prune] deletes the entry under [filePath]. *)
Definition stale (existingFiles : gset string) (cutoffTime : Z)
    (filePath : string) (entry : CacheEntry.t) : bool :=
  negb (bool_decide (filePath ∈ existingFiles))
  || (CacheEntry.timestamp entry <? cutoffTime)%Z.

Definition survivor (existingFiles : gset string) (cutoffTime : Z)
    (filePath : string) (entry : option CacheEntry.t) : option CacheEntry.t :=
  match entry with
  | Some e => if stale existingFiles cutoffTime filePath e then None else Some e
  | None => None
  end.

(** What [save] hands to [writeFile], as the data the JSON text denotes;
    [None] when [save] returns early or the write fails, which leaves the
    file on disk as it was. *)
Definition written (c : t) (now : Z) (writeOk : bool) : option CacheData.t :=
  if negb (enabled c) || negb (isDirty c) then None
  else if writeOk
       then Some (CacheData.mk (CacheData.files (cache c))
                               (CacheData.createdAt (cache c)) now)
       else None.


End ScanCache.

(** ** Rules and their context ([types/ruleTypes.ts], as used by the engine) *)

Module RuleContext.
Section WithCollaborators.
Context `{Collaborators}.
Record t := mk {
  filePath : string;
  fileContent : string;
  ast : option AST;
  config : option Json;
  xmlContent : option string;
  plistContent : option string
}.

Definition with_ast (c : t) (a : AST) : t :=
  mk (filePath c) (fileContent c) (Some a) (config c) (xmlContent c) (plistContent c).
Definition with_config (c : t) (j : Json) : t :=
  mk (filePath c) (fileContent c) (ast c) (Some j) (xmlContent c) (plistContent c).
Definition with_xmlContent (c : t) (x : string) : t :=
  mk (filePath c) (fileContent c) (ast c) (config c) (Some x) (plistContent c).
Definition with_plistContent (c : t) (x : string) : t :=
  mk (filePath c) (fileContent c) (ast c) (config c) (xmlContent c) (Some x).

(** How many of the four optional payloads are present. *)
Definition populated (c : t) : nat :=
  (if ast c is Some _ then 1 else 0) + (if config c is Some _ then 1 else 0)
  + (if xmlContent c is Some _ then 1 else 0)
  + (if plistContent c is Some _ then 1 else 0).
End WithCollaborators.
End RuleContext.

Module Rule.
Section WithCollaborators.
Context `{Collaborators}.
(** [apply] returns [None] when the call throws or its promise rejects. *)
Record t := mk {
  id : string;
  description : string;
  severity : Severity;
  fileTypes : list string;
  apply : RuleContext.t → option (list Finding.t)
}.
End WithCollaborators.
End Rule.

Module RuleGroup.
Section WithCollaborators.
Context `{Collaborators}.
Record t := mk {
  category : string;
  rules : list Rule.t
}.
End WithCollaborators.
End RuleGroup.

Module ScanResult.
Record t := mk {
  findings : list Finding.t;
  scannedFiles : nat;
  skippedFiles : option nat;
  cachedFiles : option nat
}.
End ScanResult.

(** [String.prototype.endsWith]: [suffix] is one of the tails of [s]. *)
Fixpoint endsWith (s suffix : string) : bool :=
  String.eqb s suffix
  || match s with
     | EmptyString => false
     | String _ rest => endsWith rest suffix
     end.

Fixpoint lastChar (s : string) : option ascii :=
  match s with
  | EmptyString => None
  | String a rest => if rest is EmptyString then Some a else lastChar rest
  end.

(** ** class RuleEngine *)

Module RuleEngine.
Section WithCollaborators.
Context `{Collaborators}.

Definition DEFAULT_CONCURRENCY : Z := 10.

Record t := mk {
  ruleGroups : list RuleGroup.t;
  ignoredRules : gset string;
  skippedFiles : nat;
  excludedPaths : list string;
  concurrency : Z;
  cache : option ScanCache.t;
  cachedFiles : nat
}.

(** The field initialisers of the class. *)
Definition new : t := mk [] ∅ 0 [] DEFAULT_CONCURRENCY None 0.

Definition with_cache (e : t) (c : option ScanCache.t) : t :=
  mk (ruleGroups e) (ignoredRules e) (skippedFiles e) (excludedPaths e)
     (concurrency e) c (cachedFiles e).

Definition with_skippedFiles (e : t) (n : nat) : t :=
  mk (ruleGroups e) (ignoredRules e) n (excludedPaths e)
     (concurrency e) (cache e) (cachedFiles e).

Definition with_cachedFiles (e : t) (n : nat) : t :=
  mk (ruleGroups e) (ignoredRules e) (skippedFiles e) (excludedPaths e)
     (concurrency e) (cache e) n.

Definition registerRuleGroup (e : t) (group : RuleGroup.t) : t :=
  mk (ruleGroups e ++ [group]) (ignoredRules e) (skippedFiles e) (excludedPaths e)
     (concurrency e) (cache e) (cachedFiles e).

Definition setIgnoredRules (e : t) (ignored : list string) : t :=
  mk (ruleGroups e) (list_to_set ignored) (skippedFiles e) (excludedPaths e)
     (concurrency e) (cache e) (cachedFiles e).

Definition setExcludedPaths (e : t) (exclude : list string) : t :=
  mk (ruleGroups e) (ignoredRules e) (skippedFiles e) exclude
     (concurrency e) (cache e) (cachedFiles e).

Definition getExcludedPaths (e : t) : list string := excludedPaths e.

(** [Math.max(1, concurrency)] *)
Definition setConcurrency (e : t) (n : Z) : t :=
  mk (ruleGroups e) (ignoredRules e) (skippedFiles e) (excludedPaths e)
     (Z.max 1 n) (cache e) (cachedFiles e).

Definition getConcurrency (e : t) : Z := concurrency e.

(** [new ScanCache(projectDir, version)] followed by [load()]; [disk] is
    what the cache file holds, [now], [now'] are the clock readings of the
    constructor and [later], [later'] those of [load]. *)
Definition enableCache (e : t) (projectDir version : string)
    (disk : ScanCache.Persisted) (now now' later later' : Z) : t :=
  with_cache e
    (Some (ScanCache.load (ScanCache.new projectDir version DEFAULT_CACHE_FILE now now')
             disk later later')).

Definition disableCache (e : t) : t := with_cache e None.

Definition saveCache (e : t) (now : Z) (writeOk : bool) : t :=
  match cache e with
  | Some c => with_cache e (Some (ScanCache.save c now writeOk))
  | None => e
  end.

Definition clearCache (e : t) (now now' saveAt : Z) (writeOk : bool) : t :=
  match cache e with
  | Some c => with_cache e (Some (ScanCache.save (ScanCache.clear c now now') saveAt writeOk))
  | None => e
  end.

Definition isCacheEnabled (e : t) : bool :=
  match cache e with
  | Some c => ScanCache.isEnabled c
  | None => false
  end.

Definition getAllRules (e : t) : list Rule.t :=
  List.filter (fun rule => negb (bool_decide (Rule.id rule ∈ ignoredRules e)))
              (flat_map RuleGroup.rules (ruleGroups e)).

Definition getApplicableRules (e : t) (filePath : string) : list Rule.t :=
  List.filter (fun rule => existsb (fun type => endsWith filePath type) (Rule.fileTypes rule))
              (getAllRules e).

(** [filePath.match(/\.(js|jsx|ts|tsx)$/)]: without the [m] flag the
    anchor matches at the end of the string only. *)
Definition isCodePath (filePath : string) : bool :=
  endsWith filePath ".js" || endsWith filePath ".jsx"
  || endsWith filePath ".ts" || endsWith filePath ".tsx".

Definition prepareContext (filePath fileContent : string) : RuleContext.t :=
  let context := RuleContext.mk filePath fileContent None None None None in
  if isCodePath filePath then
    match parseJSFile filePath fileContent with
    | Some ast => RuleContext.with_ast context ast
    | None => context
    end
  else if endsWith filePath ".json" then
    match parseJsonSafe fileContent with
    | Some config => if truthy config then RuleContext.with_config context config else context
    | None => context
    end
  else if endsWith filePath ".xml" then
    RuleContext.with_xmlContent context fileContent
  else if endsWith filePath ".plist" then
    RuleContext.with_plistContent context fileContent
  else context.

Definition enrichFindingsWithDebugContext (findings : list Finding.t)
    (fileContent : string) : list Finding.t :=
  List.filter
    (fun finding =>
       let inDebugContext :=
         isInDebugContext fileContent (Finding.snippet finding) (Finding.filePath finding) in
       negb inDebugContext)
    findings.

(** The [for] loop of [scanFileContent], with [findings] as accumulator:
    a rule that throws leaves it as it is. *)
Fixpoint applyRules (context : RuleContext.t) (rules : list Rule.t)
    (findings : list Finding.t) : list Finding.t :=
  match rules with
  | [] => findings
  | rule :: rest =>
      match Rule.apply rule context with
      | Some ruleFindings => applyRules context rest (findings ++ ruleFindings)
      | None => applyRules context rest findings
      end
  end.

Definition scanFileContent (e : t) (filePath fileContent : string) : list Finding.t :=
  let context := prepareContext filePath fileContent in
  let applicableRules := getApplicableRules e filePath in
  enrichFindingsWithDebugContext (applyRules context applicableRules []) fileContent.

(** *** [scanFile], split where it suspends

    [scanFile] touches the engine's state twice: after the file has been
    read (cache lookup, counters) and, on a cache miss, after
    [scanFileContent] has resolved ([cache.set]). Other tasks may run in
    between. *)

Inductive Suspended :=
| Resolved (findings : list Finding.t)
| Awaiting (contentHash : string) (findings : list Finding.t).

(** The [catch] block: count the file as skipped and return no findings. *)
Definition scanFile_catch (e : t) : list Finding.t * t :=
  ([], with_skippedFiles e (S (skippedFiles e))).

(** From the call up to the first use of the result of [scanFileContent]. *)
Definition scanFile_begin (e : t) (filePath : string) : Suspended * t :=
  match readFileContent filePath with
  | None => let '(findings, e') := scanFile_catch e in (Resolved findings, e')
  | Some fileContent =>
      match cache e with
      | Some c =>
          let contentHash := ScanCache.getContentHash c fileContent in
          let miss := (Awaiting contentHash (scanFileContent e filePath fileContent), e) in
          if ScanCache.isValid c filePath contentHash then
            match ScanCache.getFindings c filePath with
            | Some cachedFindings =>
                (Resolved cachedFindings, with_cachedFiles e (S (cachedFiles e)))
            | None => miss
            end
          else miss
      | None => (Resolved (scanFileContent e filePath fileContent), e)
      end
  end.

(** After [await this.scanFileContent(...)] on a miss: store and return.
    With no cache object left, [this.cache.set] throws and the [catch]
    block takes over. *)
Definition scanFile_end (e : t) (filePath contentHash : string)
    (findings : list Finding.t) (now : Z) : list Finding.t * t :=
  match cache e with
  | Some c =>
      (findings, with_cache e (Some (ScanCache.set c filePath contentHash findings now)))
  | None => scanFile_catch e
  end.

(** [scanFile] run without interruption. *)
Definition scanFile (e : t) (filePath : string) (now : Z) : list Finding.t * t :=
  match scanFile_begin e filePath with
  | (Resolved findings, e') => (findings, e')
  | (Awaiting contentHash findings, e') => scanFile_end e' filePath contentHash findings now
  end.

(** *** The per-file tasks of [runRulesOnFiles]

    [filePaths.map(filePath => limit(async () => ...))] creates one task
    per position of the list. The event loop resumes one task at a time;
    which one, and at what time, is given by a schedule. The limiter only
    restricts which schedules can occur, so a statement about every
    schedule covers every concurrency bound. *)

Inductive Task :=
| Queued                                                  (* not past the read yet *)
| Scanning (contentHash : string) (findings : list Finding.t)  (* miss, [set] pending *)
| Settled (findings : list Finding.t).                    (* the task's promise resolved *)

Record Run := mkRun {
  engine : t;
  tasks : list Task;
  completed : nat;
  (** the arguments of the calls of [progressCallback], oldest first *)
  progress : list (nat * nat)
}.

(** A resumption: the index of the task and the clock at that moment. *)
Definition Event : Type := nat * Z.

Definition start (e : t) (filePaths : list string) : Run :=
  mkRun e (replicate (length filePaths) Queued) 0 [].

(** The tail of the task body: [completed++], the progress call, and the
    task's promise resolves with [findings]. *)
Definition settle (total i : nat) (findings : list Finding.t) (e : t) (r : Run) : Run :=
  mkRun e (<[i := Settled findings]> (tasks r)) (S (completed r))
        (progress r ++ [(S (completed r), total)]).

Definition step (filePaths : list string) (r : Run) (ev : Event) : Run :=
  let '(i, now) := ev in
  let total := length filePaths in
  match filePaths !! i, tasks r !! i with
  | Some filePath, Some Queued =>
      match scanFile_begin (engine r) filePath with
      | (Resolved findings, e') => settle total i findings e' r
      | (Awaiting contentHash findings, e') =>
          mkRun e' (<[i := Scanning contentHash findings]> (tasks r))
                (completed r) (progress r)
      end
  | Some filePath, Some (Scanning contentHash findings) =>
      let '(findings', e') := scanFile_end (engine r) filePath contentHash findings now in
      settle total i findings' e' r
  | _, _ => r
  end.

Definition settled (task : Task) : option (list Finding.t) :=
  match task with
  | Settled findings => Some findings
  | _ => None
  end.

(** What a run hands back: the [ScanResult], the engine afterwards and the
    progress calls made. *)
Record Outcome := mkOutcome {
  result : ScanResult.t;
  after : t;
  calls : list (nat * nat)
}.

(** The body shared, word for word, by [runRulesOnFiles] and
    [runRulesOnProject]. [Promise.all] resolves once every task has
    settled, with the results in the order of the tasks; [None] says that
    the schedule ends before that. *)
Definition runAll (e : t) (filePaths : list string) (schedule : list Event)
    (saveAt : Z) (writeOk : bool) : option Outcome :=
  let totalFiles := length filePaths in
  let r := foldl (step filePaths) (start e filePaths) schedule in
  match mapM settled (tasks r) with
  | None => None
  | Some results =>
      let allFindings := concat results in
      let e' := saveCache (engine r) saveAt writeOk in
      Some (mkOutcome
              (ScanResult.mk allFindings totalFiles
                 (if (0 <? skippedFiles e')%nat then Some (skippedFiles e') else None)
                 (if (0 <? cachedFiles e')%nat then Some (cachedFiles e') else None))
              e' (progress r))
  end.

Definition runRulesOnFiles (e : t) (filePaths : list string) (schedule : list Event)
    (saveAt : Z) (writeOk : bool) : option Outcome :=
  runAll (with_cachedFiles (with_skippedFiles e 0) 0) filePaths schedule saveAt writeOk.

Definition runRulesOnProject (e : t) (rootDir : string) (schedule : list Event)
    (saveAt : Z) (writeOk : bool) : option Outcome :=
  let fileGroup := walkProjectFiles rootDir (excludedPaths e) in
  let allFiles := FileGroup.jsFiles fileGroup ++ FileGroup.jsonFiles fileGroup
                  ++ FileGroup.xmlFiles fileGroup ++ FileGroup.plistFiles fileGroup in
  runAll (with_cachedFiles (with_skippedFiles e 0) 0) allFiles schedule saveAt writeOk.

(** The schedule that runs the tasks one after the other, each to its end. *)
Definition inOrder (n : nat) (now : Z) : list Event :=
  flat_map (fun i => [(i, now); (i, now)]) (seq 0 n).

(** *** What the statements below are phrased with *)

(** The findings [scanFile] returns for [filePath] when it runs on [e]
    without interruption. The clock only ends up in the timestamp of the
    cache entry. *)
Definition fileFindings (e : t) (filePath : string) : list Finding.t :=
  (scanFile e filePath 0).1.

Definition unreadable (filePath : string) : bool :=
  if readFileContent filePath is None then true else false.

(** The four ways [scanFile] can go up to its first suspension. *)
Inductive BeginCase (e : t) (filePath : string) : Suspended * t → Prop :=
| ReadFails :
    readFileContent filePath = None →
    BeginCase e filePath (Resolved [], with_skippedFiles e (S (skippedFiles e)))
| NoCache fileContent :
    readFileContent filePath = Some fileContent →
    cache e = None →
    BeginCase e filePath (Resolved (scanFileContent e filePath fileContent), e)
| Hit fileContent c entry :
    readFileContent filePath = Some fileContent →
    cache e = Some c →
    ScanCache.isValid c filePath (sha256hex fileContent) = true →
    CacheData.files (ScanCache.cache c) !! filePath = Some entry →
    BeginCase e filePath
      (Resolved (CacheEntry.findings entry), with_cachedFiles e (S (cachedFiles e)))
| Miss fileContent c :
    readFileContent filePath = Some fileContent →
    cache e = Some c →
    ScanCache.isValid c filePath (sha256hex fileContent) = false →
    BeginCase e filePath
      (Awaiting (sha256hex fileContent) (scanFileContent e filePath fileContent), e).

(** What one rule adds to the findings of a file: nothing when it throws. *)
Definition contribution (context : RuleContext.t) (rule : Rule.t) : list Finding.t :=
  default [] (Rule.apply rule context).

(** The weight of one task in the skipped-file counter. *)
Definition skippedBy (filePath : string) (task : Task) : nat :=
  match task with
  | Queued => 0
  | _ => if unreadable filePath then 1 else 0
  end.

(** How far a task has got. *)
Definition phase (task : Task) : nat :=
  match task with
  | Queued => 0
  | Scanning _ _ => 1
  | Settled _ => 2
  end.

(** How often a schedule resumes task [i]. *)
Definition resumptions (i : nat) (schedule : list Event) : nat :=
  length (List.filter (fun ev : Event => Nat.eqb ev.1 i) schedule).

(** A schedule gives every task of an [n]-file run the two resumptions it
    can need. *)
Definition fair (n : nat) (schedule : list Event) : Prop :=
  ∀ i, (i < n)%nat → (2 ≤ resumptions i schedule)%nat.

(** The unreadable files among those whose task is past the read. *)
Fixpoint skippedSoFar (filePaths : list string) (tasks : list Task) : nat :=
  match filePaths, tasks with
  | filePath :: paths, task :: rest =>
      skippedBy filePath task + skippedSoFar paths rest
  | _, _ => 0
  end.

(** The entry a miss on [filePath] stores, up to its timestamp. *)
Definition freshEntry (e : t) (c : ScanCache.t) (filePath : string)
    (entry : CacheEntry.t) : Prop :=
  ∃ fileContent,
    readFileContent filePath = Some fileContent
    ∧ ScanCache.isValid c filePath (sha256hex fileContent) = false
    ∧ CacheEntry.hash entry = sha256hex fileContent
    ∧ CacheEntry.findings entry = scanFileContent e filePath fileContent
    ∧ CacheEntry.version entry = ScanCache.version c.

(** How the cache of a running scan relates to the cache [c0] the scan
    started with: an entry is the one of [c0], or it was stored by a miss on
    a file for which [c0] had no valid entry. *)
Definition cacheEvolved (e0 : t) (c0 c : option ScanCache.t) : Prop :=
  match c0, c with
  | None, None => True
  | Some c0, Some c =>
      ScanCache.enabled c = ScanCache.enabled c0
      ∧ ScanCache.version c = ScanCache.version c0
      ∧ ∀ filePath,
          CacheData.files (ScanCache.cache c) !! filePath
          = CacheData.files (ScanCache.cache c0) !! filePath
          ∨ ∃ entry,
              CacheData.files (ScanCache.cache c) !! filePath = Some entry
              ∧ freshEntry e0 c0 filePath entry
  | _, _ => False
  end.

Definition taskSound (e0 : t) (filePath : string) (task : Task) : Prop :=
  match task with
  | Queued => True
  | Scanning contentHash findings =>
      ∃ c0 fileContent,
        cache e0 = Some c0
        ∧ readFileContent filePath = Some fileContent
        ∧ contentHash = sha256hex fileContent
        ∧ findings = scanFileContent e0 filePath fileContent
        ∧ ScanCache.isValid c0 filePath contentHash = false
  | Settled findings => findings = fileFindings e0 filePath
  end.

(** The invariant of a run over [filePaths] that started on engine [e0]. *)
Record Invariant (e0 : t) (filePaths : list string) (r : Run) : Prop := {
  inv_length : length (tasks r) = length filePaths;
  inv_groups : ruleGroups (engine r) = ruleGroups e0;
  inv_ignored : ignoredRules (engine r) = ignoredRules e0;
  inv_cache : cacheEvolved e0 (cache e0) (cache (engine r));
  inv_tasks : ∀ i filePath task,
      filePaths !! i = Some filePath → tasks r !! i = Some task →
      taskSound e0 filePath task;
  inv_skipped : skippedFiles (engine r)
                = (skippedFiles e0 + skippedSoFar filePaths (tasks r))%nat
}.

(** *** Bookkeeping of a run *)

(** A tally over the tasks of a run, each weighted together with its file. *)
Fixpoint tally (weight : string → Task → nat) (filePaths : list string)
    (tasks : list Task) : nat :=
  match filePaths, tasks with
  | filePath :: paths, task :: rest => weight filePath task + tally weight paths rest
  | _, _ => 0
  end.

Definition settledOnes (_ : string) (task : Task) : nat :=
  if task is Settled _ then 1 else 0.

(** The weight of a task that is past the read of a readable file. *)
Definition readOnes (filePath : string) (task : Task) : nat :=
  match task with
  | Queued => 0
  | _ => if unreadable filePath then 0 else 1
  end.

(** What every run keeps true of the progress calls, of the counter of
    cache hits and of the configuration. *)
Record Bookkeeping (e0 : t) (filePaths : list string) (r : Run) : Prop := {
  bk_completed : completed r = tally settledOnes filePaths (tasks r);
  bk_progress : progress r
                = map (fun k => (k, length filePaths)) (seq 1 (completed r));
  bk_excluded : excludedPaths (engine r) = excludedPaths e0;
  bk_concurrency : concurrency (engine r) = concurrency e0;
  bk_cached : (cachedFiles (engine r)
               ≤ cachedFiles e0 + tally readOnes filePaths (tasks r))%nat;
  bk_uncached : cache (engine r) = None → cachedFiles (engine r) = cachedFiles e0
}.

(** The cache of [e] holds a valid entry for every readable file of the
    list. *)
Definition warm (e : t) (filePaths : list string) : Prop :=
  ∃ c, cache e = Some c
       ∧ ∀ filePath fileContent,
           filePath ∈ filePaths →
           readFileContent filePath = Some fileContent →
           ScanCache.isValid c filePath (sha256hex fileContent) = true.

(** What a run that starts warm keeps true: the cache is not written, no
    task gets to scan, and every readable file read so far was a hit. *)
Record WarmRun (e0 : t) (filePaths : list string) (r : Run) : Prop := {
  wr_cache : cache (engine r) = cache e0;
  wr_cached : cachedFiles (engine r)
              = (cachedFiles e0 + tally readOnes filePaths (tasks r))%nat;
  wr_tasks : ∀ i task, tasks r !! i = Some task → phase task ≠ 1%nat
}.

(** The files whose task has settled have a valid entry in the cache. *)
Definition revalidated (filePaths : list string) (r : Run) : Prop :=
  ∀ i filePath findings fileContent c,
    filePaths !! i = Some filePath →
    tasks r !! i = Some (Settled findings) →
    readFileContent filePath = Some fileContent →
    cache (engine r) = Some c →
    ScanCache.isValid c filePath (sha256hex fileContent) = true.

(** [scanFile] on one path after the other, threading the engine. *)
Fixpoint scanEach (e : t) (filePaths : list string) (now : Z)
    : list (list Finding.t) * t :=
  match filePaths with
  | [] => ([], e)
  | filePath :: rest =>
      let '(findings, e1) := scanFile e filePath now in
      let '(others, e2) := scanEach e1 rest now in
      (findings :: others, e2)
  end.

(** What running every applicable rule on a file reports, each rule
    contributing what its call returns and nothing when it throws; an
    unreadable file reports nothing. *)
Definition rescanned (e : t) (filePath : string) : list Finding.t :=
  match readFileContent filePath with
  | Some fileContent =>
      enrichFindingsWithDebugContext
        (flat_map (contribution (prepareContext filePath fileContent))
                  (getApplicableRules e filePath))
        fileContent
  | None => []
  end.

(** The cache of [e], if it has one, holds no valid entry for a readable
    file of the list. *)
Definition cold (e : t) (filePaths : list string) : Prop :=
  ∀ c filePath fileContent,
    cache e = Some c →
    filePath ∈ filePaths →
    readFileContent filePath = Some fileContent →
    ScanCache.isValid c filePath (sha256hex fileContent) = false.

(** What a run keeps true when it starts on a cache without entries: no
    file was served from the cache so far, and every entry belongs to a
    file whose task has settled. *)
Record FreshRun (e0 : t) (filePaths : list string) (r : Run) : Prop := {
  fr_cached : cachedFiles (engine r) = cachedFiles e0;
  fr_entries : ∀ c filePath,
      cache (engine r) = Some c →
      is_Some (CacheData.files (ScanCache.cache c) !! filePath) →
      ∃ j findings, filePaths !! j = Some filePath
                    ∧ tasks r !! j = Some (Settled findings)
}.

End WithCollaborators.
End RuleEngine.

(** ** A small project to evaluate the definitions on *)

Module Fixture.

Definition disk : list (string * string) :=
  [ ("/app/src/App.js", "const key = 'ghp_aBcD';");
    ("/app/src/util.ts", "export const id = (x) => x;");
    ("/app/src/broken.js", "const = ;");
    ("/app/app.json", "{}") ].

Fixpoint assoc (k : string) (l : list (string * string)) : option string :=
  match l with
  | [] => None
  | (k', v) :: rest => if String.eqb k k' then Some v else assoc k rest
  end.

(** Stand-ins: the tree of a source text is the text itself, every text
    but ["const = ;"] parses, the digest is the identity, and only
    [*.test.ts] paths count as debug context. *)
#[local] Instance sample : Collaborators := {|
  AST := string;
  Json := string;
  truthy := fun j => negb (String.eqb j "null");
  sha256hex := fun content => content;
  readFileContent := fun filePath => assoc filePath disk;
  parseJSFile := fun _ content =>
    if String.eqb content "const = ;" then None else Some content;
  parseJsonSafe := fun content =>
    if String.eqb content "" then None else Some content;
  isInDebugContext := fun _ _ filePath => endsWith filePath ".test.ts";
  walkProjectFiles := fun _ _ =>
    FileGroup.mk ["/app/src/App.js"; "/app/src/util.ts"] ["/app/app.json"] [] []
|}.

Definition finding (ruleId filePath : string) : Finding.t :=
  Finding.mk ruleId "sample finding" HIGH filePath (Some 1%Z) None None.

(** A rule that reports once per file, and a rule that always throws. *)
Definition reporting (id : string) : Rule.t :=
  Rule.mk id "reports one finding" HIGH [".js"; ".ts"]
    (fun context => Some [finding id (RuleContext.filePath context)]).

Definition throwing : Rule.t :=
  Rule.mk "THROWS" "always fails" LOW [".js"] (fun _ => None).

Definition engine : RuleEngine.t :=
  RuleEngine.registerRuleGroup RuleEngine.new
    (RuleGroup.mk "storage" [reporting "R1"; throwing; reporting "R2"]).

Definition paths : list string :=
  ["/app/src/App.js"; "/nonexistent/file.js"; "/app/src/util.ts"; "/app/src/App.js"].

(** A cache holding fresh entries for [/a] and [/b]. *)
Definition twoEntries : ScanCache.t :=
  ScanCache.set
    (ScanCache.set (ScanCache.new "/proj" "1.0.0" DEFAULT_CACHE_FILE 1000 1000)
       "/a" "ha" [finding "R1" "/a"] 2000)
    "/b" "hb" [] 3000.

(** An interleaving of the four tasks of [paths]: the two scans of
    [/app/src/App.js] both miss before either stores its result. The last
    resumption finds its task settled already. *)
Definition interleaved : list RuleEngine.Event :=
  [ (3, 10%Z); (0, 11%Z); (2, 12%Z); (1, 13%Z); (0, 14%Z); (3, 15%Z); (2, 16%Z);
    (1, 17%Z) ].

Definition cached : RuleEngine.t :=
  RuleEngine.enableCache engine "/app" "1.0.0" ScanCache.Unreadable 1 1 2 2.

(** An engine whose cache already holds, for the two readable files of
    [paths], the entries a scan stores; its only rule throws. *)
Definition warmed : RuleEngine.t :=
  RuleEngine.with_cache
    (RuleEngine.registerRuleGroup RuleEngine.new (RuleGroup.mk "storage" [throwing]))
    (Some
       (ScanCache.set
          (ScanCache.set (ScanCache.new "/app" "1.0.0" DEFAULT_CACHE_FILE 1 1)
             "/app/src/App.js" "const key = 'ghp_aBcD';"
             [finding "R1" "/app/src/App.js"] 2)
          "/app/src/util.ts" "export const id = (x) => x;" [] 3)).

(** A cache file written by version 0.9.0: its entry for [/app/src/App.js]
    has the hash of the file as it is now, and no findings. *)
Definition staleData : CacheData.t :=
  CacheData.mk
    (<["/app/src/App.js" := CacheEntry.mk "const key = 'ghp_aBcD';" [] 2 "0.9.0"]> ∅)
    1 1.

End Fixture.

(** * Properties of [ScanCache] *)

Module ScanCacheFacts.
Import ScanCache.

Lemma isValid_true_iff (c : t) (filePath contentHash : string) :
  isValid c filePath contentHash = true ↔
  enabled c = true ∧
  ∃ entry, CacheData.files (cache c) !! filePath = Some entry
           ∧ CacheEntry.hash entry = contentHash
           ∧ CacheEntry.version entry = version c.
Proof.
  unfold isValid. split.
  - destruct (enabled c); simpl; [|discriminate].
    destruct (CacheData.files (cache c) !! filePath) as [entry|]; [|discriminate].
    destruct (String.eqb_spec (CacheEntry.hash entry) contentHash); [|discriminate].
    destruct (String.eqb_spec (CacheEntry.version entry) (version c)); [|discriminate].
    intros _. eauto 6.
  - intros [-> (entry & -> & Hh & Hv)]. simpl.
    apply String.eqb_eq in Hh, Hv. by rewrite Hh, Hv.
Qed.

Lemma set_enabled_files (c : t) (filePath contentHash : string)
    (findings : list Finding.t) (now : Z) :
  enabled c = true →
  CacheData.files (cache (set c filePath contentHash findings now))
  = <[filePath := CacheEntry.mk contentHash findings now (version c)]>
      (CacheData.files (cache c)).
Proof. intros Hen. unfold set. by rewrite Hen. Qed.

Lemma set_version (c : t) filePath contentHash findings now :
  version (set c filePath contentHash findings now) = version c.
Proof. unfold set. by destruct (enabled c). Qed.

Lemma set_enabled (c : t) filePath contentHash findings now :
  enabled (set c filePath contentHash findings now) = enabled c.
Proof. unfold set. by destruct (enabled c) eqn:Hen. Qed.

Lemma prune_body_present E cut st filePath entry :
  loop_files st !! filePath = Some entry →
  prune_body E cut st filePath =
  Some (if stale E cut filePath entry
        then loop (delete filePath (loop_files st)) (S (pruned st)) true
        else st).
Proof.
  intros Hlook. unfold prune_body, stale. rewrite Hlook.
  destruct (bool_decide (filePath ∈ E)); simpl; [|done].
  by destruct (CacheEntry.timestamp entry <? cut)%Z.
Qed.

(** The loop over distinct keys that are all present never throws; it
    deletes the stale ones among them and counts what it deletes. *)
Lemma prune_loop_spec E cut (ks : list string) :
  ∀ st, NoDup ks →
    (∀ k, k ∈ ks → is_Some (loop_files st !! k)) →
    ∃ st', prune_loop E cut ks st = Some st'
      ∧ (∀ p, loop_files st' !! p =
              if bool_decide (p ∈ ks)
              then survivor E cut p (loop_files st !! p)
              else loop_files st !! p)
      ∧ size (loop_files st') + (pruned st' - pruned st) = size (loop_files st)
      ∧ (pruned st ≤ pruned st')%nat
      ∧ (dirty st = true → dirty st' = true).
Proof.
  induction ks as [|k ks IH]; intros st Hnd Hin.
  - exists st. simpl. repeat split; auto with lia.
  - apply NoDup_cons in Hnd as [Hk Hnd].
    destruct (Hin k) as [entry Hentry]; [by left|].
    simpl. rewrite (prune_body_present _ _ _ _ _ Hentry).
    set (st1 := if stale E cut k entry
                then loop (delete k (loop_files st)) (S (pruned st)) true else st).
    assert (Hother : ∀ p, p ≠ k → loop_files st1 !! p = loop_files st !! p).
    { intros p Hp. unfold st1. destruct (stale E cut k entry); [|done].
      simpl. by rewrite lookup_delete_ne. }
    destruct (IH st1 Hnd) as (st' & Hrun & Hfiles & Hsize & Hle & Hdirty).
    { intros k' Hk'. rewrite Hother; [|by intros ->]. apply Hin. by right. }
    exists st'. split; [done|]. split; [|split; [|split]].
    + intros p. rewrite Hfiles.
      destruct (decide (p = k)) as [->|Hp].
      * rewrite (bool_decide_eq_false_2 _ Hk).
        rewrite (bool_decide_eq_true_2 (k ∈ k :: ks)); [|by left].
        rewrite Hentry. unfold st1. simpl.
        destruct (stale E cut k entry); simpl; [by rewrite lookup_delete_eq|done].
      * rewrite (Hother p Hp).
        destruct (decide (p ∈ ks)) as [Hpin|Hpin].
        -- rewrite (bool_decide_eq_true_2 _ Hpin).
           rewrite (bool_decide_eq_true_2 (p ∈ k :: ks)); [done|by right].
        -- rewrite (bool_decide_eq_false_2 _ Hpin).
           rewrite (bool_decide_eq_false_2 (p ∈ k :: ks)); [done|].
           by intros [?|?]%elem_of_cons.
    + revert Hsize Hle. unfold st1. destruct (stale E cut k entry); simpl; [|lia].
      rewrite map_size_delete_Some; [|by eexists].
      assert (size (loop_files st) ≠ 0).
      { intros Hz. apply map_size_empty_inv in Hz. rewrite Hz in Hentry.
        by rewrite lookup_empty in Hentry. }
      lia.
    + revert Hle. unfold st1. destruct (stale E cut k entry); simpl; lia.
    + intros Hd. apply Hdirty. unfold st1. by destruct (stale E cut k entry).
Qed.

Lemma elem_of_keys (c : t) (k : string) :
  k ∈ keys c ↔ is_Some (CacheData.files (cache c) !! k).
Proof.
  unfold keys. rewrite list_elem_of_fmap. split.
  - intros ([k' e] & -> & Hin). apply elem_of_map_to_list in Hin. by eexists.
  - intros [e He]. exists (k, e). split; [done|]. by apply elem_of_map_to_list.
Qed.

(** [prune] never throws, keeps exactly the entries that are not stale,
    and returns by how much the dictionary shrank. *)
Lemma prune_spec (c : t) (existingFiles : gset string) (maxAgeMs now : Z) :
  ∃ c' n, prune c existingFiles maxAgeMs now = Some (c', n)
    ∧ (∀ p, CacheData.files (cache c') !! p =
            survivor existingFiles (now - maxAgeMs) p (CacheData.files (cache c) !! p))
    ∧ size (CacheData.files (cache c')) + n = size (CacheData.files (cache c))
    ∧ version c' = version c ∧ enabled c' = enabled c.
Proof.
  unfold prune.
  destruct (prune_loop_spec existingFiles (now - maxAgeMs)%Z (keys c)
              (loop (CacheData.files (cache c)) 0 (isDirty c)))
    as (st' & -> & Hfiles & Hsize & Hle & _).
  - apply NoDup_fst_map_to_list.
  - intros k Hk. by apply elem_of_keys.
  - eexists _, _. split; [done|]. simpl in *. repeat split; [|lia].
    intros p. rewrite Hfiles. case_bool_decide as Hp; [done|].
    destruct (CacheData.files (cache c) !! p) as [e|] eqn:He; [|done].
    exfalso. apply Hp, elem_of_keys. by eexists.
Qed.

Lemma survivor_filter (E : gset string) (cut : Z) (m m' : gmap string CacheEntry.t) :
  (∀ p, m' !! p = survivor E cut p (m !! p)) →
  m' = filter (λ kv, kv.1 ∈ E ∧ (cut ≤ CacheEntry.timestamp kv.2)%Z) m.
Proof.
  intros Hm'. apply map_eq. intros p. rewrite Hm', map_lookup_filter.
  destruct (m !! p) as [e|]; simpl; [|done]. unfold stale.
  case_guard as Hkeep; simpl in Hkeep.
  - destruct Hkeep as [Hin Hts]. rewrite (bool_decide_eq_true_2 _ Hin). simpl.
    by rewrite (proj2 (Z.ltb_ge _ _) Hts).
  - case_bool_decide as Hin; simpl; [|done].
    destruct (Z.ltb_spec (CacheEntry.timestamp e) cut); [done|].
    exfalso. by apply Hkeep.
Qed.

Lemma survivor_count (E : gset string) (cut : Z) (m m' : gmap string CacheEntry.t) (n : nat) :
  (∀ p, m' !! p = survivor E cut p (m !! p)) →
  size m' + n = size m →
  n = size (filter (λ kv, kv.1 ∉ E ∨ (CacheEntry.timestamp kv.2 < cut)%Z) m).
Proof.
  intros Hm' Hsize. pose proof (survivor_filter E cut m m' Hm') as ->.
  set (keep := λ kv : string * CacheEntry.t, kv.1 ∈ E ∧ (cut ≤ CacheEntry.timestamp kv.2)%Z).
  set (drop := λ kv : string * CacheEntry.t, kv.1 ∉ E ∨ (CacheEntry.timestamp kv.2 < cut)%Z).
  assert (Hdrop : filter drop m = filter (λ kv, ¬ keep kv) m).
  { apply map_filter_ext. intros p e _. unfold keep, drop. simpl.
    destruct (decide (p ∈ E)); [|tauto]. split; [intros [?|?]; [done|lia]|].
    intros Hn. right. destruct (Z.ltb_spec (CacheEntry.timestamp e) cut); [done|].
    exfalso. by apply Hn. }
  fold keep in Hsize. fold drop. rewrite Hdrop.
  pose proof (map_filter_union_complement keep m) as Hun.
  pose proof (map_disjoint_filter_complement keep m) as Hdisj.
  pose proof (map_size_disj_union _ _ Hdisj) as Hsz.
  rewrite (f_equal size Hun) in Hsz. lia.
Qed.

(** ** The claims about the cache *)

(** C6. On an enabled cache, [set(path, hash, findings)] makes
    [isValid(path, hash)] true, with the entry carrying the running
    version, and [getFindings(path)] returns the findings just stored.
    On an enabled cache [isValid(path, h)] is true iff there is an entry
    for [path] whose hash is [h] and whose version is the running one. *)
Theorem set_then_valid (c : t) (filePath contentHash : string)
    (findings : list Finding.t) (now : Z) :
  enabled c = true →
  let c' := set c filePath contentHash findings now in
  isValid c' filePath contentHash = true
  ∧ CacheEntry.version <$> (CacheData.files (cache c') !! filePath) = Some (version c')
  ∧ getFindings c' filePath = Some findings
  ∧ ∀ path h,
      isValid c path h = true ↔
      ∃ entry, CacheData.files (cache c) !! path = Some entry
               ∧ CacheEntry.hash entry = h
               ∧ CacheEntry.version entry = version c.
Proof.
  intros Hen c'.
  assert (Hlook : CacheData.files (cache c') !! filePath
                  = Some (CacheEntry.mk contentHash findings now (version c))).
  { unfold c'. rewrite set_enabled_files by done. apply lookup_insert_eq. }
  assert (Hen' : enabled c' = true) by (unfold c'; by rewrite set_enabled).
  assert (Hv' : version c' = version c) by apply set_version.
  split; [|split; [|split]].
  - apply isValid_true_iff. split; [done|]. eexists. split; [done|]. by rewrite Hv'.
  - by rewrite Hlook, Hv'.
  - unfold getFindings. by rewrite Hen', Hlook.
  - intros path h. rewrite isValid_true_iff. split; [by intros [_ ?]|by split].
Qed.

(** C10. On an enabled cache, [getFindings(path)] returns the findings of
    whatever entry sits under [path]; it looks at neither the hash nor the
    version. An entry that [isValid] rejects (another hash, another
    version) is still handed out; [isValid] alone makes those checks. *)
Theorem getFindings_ignores_hash_and_version (c : t) (filePath : string)
    (entry : CacheEntry.t) :
  enabled c = true →
  CacheData.files (cache c) !! filePath = Some entry →
  getFindings c filePath = Some (CacheEntry.findings entry)
  ∧ ∀ contentHash,
      isValid c filePath contentHash = true ↔
      CacheEntry.hash entry = contentHash ∧ CacheEntry.version entry = version c.
Proof.
  intros Hen Hentry. split.
  - unfold getFindings. by rewrite Hen, Hentry.
  - intros h. rewrite isValid_true_iff. split.
    + intros [_ (e & He & Hh & Hv)]. rewrite Hentry in He. by injection He as <-.
    + intros [Hh Hv]. split; [done|]. by exists entry.
Qed.

(** C7. [prune(existingFiles, maxAgeMs)] never throws. What remains is the
    old dictionary restricted to the entries whose path is in
    [existingFiles] and whose timestamp is not below [now - maxAgeMs];
    the number returned counts the entries whose path is missing from
    [existingFiles] or whose timestamp is below that cutoff. A cache with
    fresh entries for [/a] and [/b], pruned against [{"/a"}], keeps [/a]
    only and returns [1]. *)
Theorem prune_removes_the_stale (c : t) (existingFiles : gset string) (maxAgeMs now : Z) :
  (∃ c' n,
      prune c existingFiles maxAgeMs now = Some (c', n)
      ∧ CacheData.files (cache c') =
        filter (λ kv, kv.1 ∈ existingFiles
                      ∧ (now - maxAgeMs ≤ CacheEntry.timestamp kv.2)%Z)
               (CacheData.files (cache c))
      ∧ n = size (filter (λ kv, kv.1 ∉ existingFiles
                                ∨ (CacheEntry.timestamp kv.2 < now - maxAgeMs)%Z)
                         (CacheData.files (cache c))))
  ∧ (∀ version ha fa hb fb,
      let fresh :=
        set (set (new "/proj" version DEFAULT_CACHE_FILE 1000 1000) "/a" ha fa 2000)
            "/b" hb fb 3000 in
      ∃ c', prune fresh {["/a"]} DEFAULT_MAX_AGE_MS 4000 = Some (c', 1)
            ∧ CacheData.files (cache c') = {["/a" := CacheEntry.mk ha fa 2000 version]}).
Proof.
  split.
  - destruct (prune_spec c existingFiles maxAgeMs now)
      as (c' & n & Hrun & Hfiles & Hsize & _).
    exists c', n. split; [done|]. split.
    + by apply survivor_filter.
    + by eapply survivor_count.
  - intros version ha fa hb fb fresh. eexists. split; [vm_compute; reflexivity|].
    vm_compute. reflexivity.
Qed.

(** C3, as the code has it. After [setEnabled(false)] every query misses
    and [set] changes nothing. [remove], [clear] and [prune] do not look at
    the flag: they do to a disabled cache what they do to an enabled one.
    None of the operations throws. *)
Theorem disabled_cache (c : t) :
  let off := setEnabled c false in
  (∀ filePath contentHash, isValid off filePath contentHash = false)
  ∧ (∀ filePath, getFindings off filePath = None)
  ∧ (∀ filePath contentHash findings now,
       set off filePath contentHash findings now = off)
  ∧ (∀ filePath, remove off filePath = setEnabled (remove c filePath) false)
  ∧ (∀ now now', clear off now now' = setEnabled (clear c now now') false)
  ∧ (∀ existingFiles maxAgeMs now,
       ∃ c' n, prune c existingFiles maxAgeMs now = Some (c', n)
               ∧ prune off existingFiles maxAgeMs now = Some (setEnabled c' false, n)).
Proof.
  intros off. repeat split; try done.
  - intros filePath. unfold remove, off. simpl.
    by destruct (CacheData.files (cache c) !! filePath).
  - intros E maxAgeMs now.
    destruct (prune_spec c E maxAgeMs now) as (c' & n & Hrun & _).
    exists c', n. split; [done|]. revert Hrun. unfold prune, off, keys. simpl.
    destruct (prune_loop _ _ _ _); [|done]. by intros [= <- <-].
Qed.

(** C3 as stated fails: on a disabled cache [remove], [clear] and [prune]
    each drop entries. *)
Lemma disabled_cache_still_mutates :
  let off := setEnabled Fixture.twoEntries false in
  CacheData.files (cache off) !! "/b" ≠ None
  ∧ CacheData.files (cache (remove off "/b")) !! "/b" = None
  ∧ CacheData.files (cache (clear off 4000 4000)) !! "/b" = None
  ∧ (fst <$> prune off {["/a"]} DEFAULT_MAX_AGE_MS 4000) ≠ Some off.
Proof.
  repeat split; vm_compute; congruence.
Qed.

(** ** More about the cache *)

Lemma isValid_after_set (c : t) (filePath contentHash h : string)
    (findings : list Finding.t) (now : Z) :
  enabled c = true →
  isValid (set c filePath contentHash findings now) filePath h = String.eqb contentHash h.
Proof.
  intros Hen. unfold isValid.
  rewrite set_enabled, Hen, set_version, set_enabled_files by done. simpl.
  rewrite lookup_insert_eq. simpl. rewrite String.eqb_refl. simpl.
  by destruct (String.eqb contentHash h).
Qed.

Lemma set_other_entry (c : t) (filePath other contentHash : string)
    (findings : list Finding.t) (now : Z) :
  filePath ≠ other →
  CacheData.files (cache (set c filePath contentHash findings now)) !! other
  = CacheData.files (cache c) !! other.
Proof.
  intros Hne. unfold set. destruct (enabled c); simpl; [|done].
  by rewrite lookup_insert_ne.
Qed.

(** Storing under one path other than ["__proto__"]: the stored hash is the
    only one [isValid] accepts for that path afterwards, the answers for
    every other path are what they were, and the number of entries grows by
    one exactly when the path was new. *)
Theorem set_is_local_upsert (c : t) (filePath contentHash : string)
    (findings : list Finding.t) (now : Z) :
  enabled c = true →
  filePath ≠ "__proto__" →
  let c' := set c filePath contentHash findings now in
  (∀ h, isValid c' filePath h = String.eqb contentHash h)
  ∧ (∀ other h, other ≠ filePath →
       isValid c' other h = isValid c other h
       ∧ getFindings c' other = getFindings c other)
  ∧ getStats c' = (if CacheData.files (cache c) !! filePath is Some _
                   then getStats c else S (getStats c)).
Proof.
  intros Hen _ c'. split; [|split].
  - intros h. by apply isValid_after_set.
  - intros other h Hne. unfold isValid, getFindings, c'.
    rewrite set_enabled, set_version, set_other_entry by done. done.
  - unfold getStats, c'. rewrite set_enabled_files by done.
    destruct (CacheData.files (cache c) !! filePath) as [old|] eqn:Hold.
    + rewrite map_size_insert_Some; [done|by eexists].
    + by rewrite map_size_insert_None.
Qed.


(** Storing a new path and removing it again gives back the entries the
    cache had. *)
Theorem set_then_remove (c : t) (filePath contentHash : string)
    (findings : list Finding.t) (now : Z) :
  enabled c = true →
  CacheData.files (cache c) !! filePath = None →
  CacheData.files (cache (remove (set c filePath contentHash findings now) filePath))
  = CacheData.files (cache c).
Proof.
  intros Hen Hnew. unfold remove. rewrite set_enabled_files by done.
  rewrite lookup_insert_eq. simpl.
  rewrite delete_insert_eq. by apply delete_id.
Qed.

(** [save] never changes what the cache answers. A successful write clears
    the dirty flag, so that saving again writes nothing; a failed write
    keeps the flag, so that a later [save] tries again. *)
Theorem save_keeps_answers (c : t) (now : Z) (writeOk : bool) :
  let c' := save c now writeOk in
  (∀ filePath h, isValid c' filePath h = isValid c filePath h)
  ∧ (∀ filePath, getFindings c' filePath = getFindings c filePath)
  ∧ (∀ later ok, written (save c now true) later ok = None)
  ∧ (∀ later, written (save c now false) later true
              = (if enabled c && isDirty c
                 then Some (CacheData.mk (CacheData.files (cache c))
                                         (CacheData.createdAt (cache c)) later)
                 else None)).
Proof.
  intros c'. unfold c', save, written, isValid, getFindings.
  destruct (enabled c) eqn:Hen, (isDirty c) eqn:Hd, writeOk; simpl;
    rewrite ?Hen, ?Hd; simpl; repeat split; try done.
  all: intros; simpl; rewrite ?Hen, ?Hd; simpl; by try destruct ok.
Qed.


(** *** [prune], once more *)

Lemma prune_body_cases E cut st filePath st1 :
  prune_body E cut st filePath = Some st1 →
  st1 = st ∨ (pruned st1 = S (pruned st) ∧ dirty st1 = true).
Proof.
  unfold prune_body. destruct (bool_decide (filePath ∈ E)); simpl.
  - destruct (loop_files st !! filePath) as [e|]; [|done].
    destruct (CacheEntry.timestamp e <? cut)%Z; intros [= <-]; auto.
  - intros [= <-]. auto.
Qed.

(** The counter tells whether the loop changed anything. *)
Lemma prune_loop_counter E cut (ks : list string) :
  ∀ st st', prune_loop E cut ks st = Some st' →
    (pruned st ≤ pruned st')%nat
    ∧ (pruned st' = pruned st → st' = st)
    ∧ ((pruned st < pruned st')%nat → dirty st' = true)
    ∧ (dirty st = true → dirty st' = true).
Proof.
  induction ks as [|k ks IH]; intros st st'; simpl.
  - intros [= <-]. repeat split; auto with lia.
  - destruct (prune_body E cut st k) as [st1|] eqn:Hbody; [|done].
    intros Hrest. destruct (IH _ _ Hrest) as (Hle & Hsame & Hgrow & Hdirty).
    destruct (prune_body_cases _ _ _ _ _ Hbody) as [->|[Hcount Hd]].
    + done.
    + repeat split; [lia|lia|auto|auto].
Qed.

Lemma prune_zero_unchanged (c c' : t) (existingFiles : gset string) (maxAgeMs now : Z) :
  prune c existingFiles maxAgeMs now = Some (c', 0%nat) → c' = c.
Proof.
  unfold prune.
  destruct (prune_loop _ _ _ _) as [st|] eqn:Hloop; [|done].
  intros [= <- Hzero].
  destruct (prune_loop_counter _ _ _ _ _ Hloop) as (_ & Hsame & _).
  rewrite (Hsame Hzero). simpl. by destruct c as [? [] ? ? ?].
Qed.

Lemma survivor_twice E cut filePath entry :
  survivor E cut filePath (survivor E cut filePath entry) = survivor E cut filePath entry.
Proof.
  destruct entry as [e|]; simpl; [|done].
  destruct (stale E cut filePath e) eqn:Hstale; simpl; [done|]. by rewrite Hstale.
Qed.

(** The number [prune] returns tells whether it did anything: on [0] the
    cache is exactly what it was, on a positive number it is marked dirty.
    Pruning never makes a query succeed that failed before. *)
Theorem prune_reports_change (c c' : t) (existingFiles : gset string)
    (maxAgeMs now : Z) (n : nat) :
  prune c existingFiles maxAgeMs now = Some (c', n) →
  (n = 0%nat → c' = c)
  ∧ ((0 < n)%nat → isDirty c' = true)
  ∧ (∀ filePath h, isValid c' filePath h = true → isValid c filePath h = true)
  ∧ version c' = version c ∧ enabled c' = enabled c.
Proof.
  intros Hrun.
  destruct (prune_spec c existingFiles maxAgeMs now)
    as (c1 & n1 & Hrun1 & Hfiles & _ & Hv & Hen).
  rewrite Hrun in Hrun1. injection Hrun1 as <- <-.
  split; [|split; [|split]].
  - intros ->. by eapply prune_zero_unchanged.
  - intros Hpos. revert Hrun. unfold prune.
    destruct (prune_loop _ _ _ _) as [st|] eqn:Hloop; [|done].
    intros [= <- <-]. simpl.
    destruct (prune_loop_counter _ _ _ _ _ Hloop) as (_ & _ & Hgrow & _).
    apply Hgrow. simpl. lia.
  - intros filePath h. rewrite !isValid_true_iff, Hen, Hv, Hfiles.
    intros (Hon & entry & Hentry & Hh & Hver). split; [done|].
    exists entry. split; [|done].
    destruct (CacheData.files (cache c) !! filePath) as [e|]; simpl in Hentry; [|done].
    by destruct (stale _ _ _ e).
  - done.
Qed.

(** Pruning a second time, against the same set and at the same moment,
    finds nothing left to remove and leaves the cache as the first pruning
    left it. *)
Theorem prune_twice (c c' : t) (existingFiles : gset string) (maxAgeMs now : Z) (n : nat) :
  prune c existingFiles maxAgeMs now = Some (c', n) →
  prune c' existingFiles maxAgeMs now = Some (c', 0%nat).
Proof.
  intros Hrun.
  destruct (prune_spec c existingFiles maxAgeMs now)
    as (c1 & n1 & Hrun1 & Hfiles & _).
  rewrite Hrun in Hrun1. injection Hrun1 as <- <-.
  destruct (prune_spec c' existingFiles maxAgeMs now)
    as (c2 & n2 & Hrun2 & Hfiles2 & Hsize2 & _).
  assert (Hsame : CacheData.files (cache c2) = CacheData.files (cache c')).
  { apply map_eq. intros p. by rewrite Hfiles2, Hfiles, survivor_twice. }
  assert (n2 = 0%nat) as -> by (rewrite Hsame in Hsize2; lia).
  by rewrite Hrun2, (prune_zero_unchanged _ _ _ _ _ Hrun2).
Qed.

Lemma isValid_set_other (c : t) (filePath other contentHash h : string)
    (findings : list Finding.t) (now : Z) :
  filePath ≠ other →
  isValid (set c filePath contentHash findings now) other h = isValid c other h.
Proof.
  intros Hne. unfold isValid.
  by rewrite set_enabled, set_version, set_other_entry.
Qed.

Lemma isValid_save (c : t) (now : Z) (writeOk : bool) (filePath h : string) :
  isValid (save c now writeOk) filePath h = isValid c filePath h.
Proof.
  unfold save, isValid.
  by destruct (enabled c) eqn:Hen, (isDirty c), writeOk; simpl; rewrite ?Hen.
Qed.

End ScanCacheFacts.

(** * Properties of [RuleEngine] *)

Module RuleEngineFacts.
Import RuleEngine.

Section WithCollaborators.
Context `{Collaborators}.

(** ** One file *)

Lemma applyRules_spec (context : RuleContext.t) (rules : list Rule.t) :
  ∀ findings,
    applyRules context rules findings
    = findings ++ flat_map (contribution context) rules.
Proof.
  induction rules as [|rule rest IH]; intros findings; simpl.
  - by rewrite app_nil_r.
  - unfold contribution at 1.
    destruct (Rule.apply rule context) as [ruleFindings|]; simpl; rewrite IH.
    + by rewrite <- app_assoc.
    + done.
Qed.

Lemma scanFileContent_spec (e : t) (filePath fileContent : string) :
  scanFileContent e filePath fileContent
  = enrichFindingsWithDebugContext
      (flat_map (contribution (prepareContext filePath fileContent))
                (getApplicableRules e filePath))
      fileContent.
Proof. unfold scanFileContent. by rewrite applyRules_spec. Qed.

(** Only the registered groups and the ignore set matter to a scan. *)
Lemma scanFileContent_same_rules (e e' : t) (filePath fileContent : string) :
  ruleGroups e = ruleGroups e' → ignoredRules e = ignoredRules e' →
  scanFileContent e filePath fileContent = scanFileContent e' filePath fileContent.
Proof.
  intros Hg Hi. unfold scanFileContent, getApplicableRules, getAllRules.
  by rewrite Hg, Hi.
Qed.

Lemma isValid_getFindings (c : ScanCache.t) (filePath contentHash : string) :
  ScanCache.isValid c filePath contentHash = true →
  ∃ entry, CacheData.files (ScanCache.cache c) !! filePath = Some entry
           ∧ ScanCache.getFindings c filePath = Some (CacheEntry.findings entry).
Proof.
  intros [Hen (entry & Hentry & _)]%ScanCacheFacts.isValid_true_iff.
  exists entry. split; [done|]. unfold ScanCache.getFindings. by rewrite Hen, Hentry.
Qed.

Lemma scanFile_begin_cases (e : t) (filePath : string) :
  BeginCase e filePath (scanFile_begin e filePath).
Proof.
  unfold scanFile_begin, scanFile_catch, ScanCache.getContentHash.
  destruct (readFileContent filePath) as [fileContent|] eqn:Hread; [|by constructor].
  destruct (cache e) as [c|] eqn:Hcache; [|by econstructor].
  destruct (ScanCache.isValid c filePath (sha256hex fileContent)) eqn:Hvalid;
    [|by econstructor].
  destruct (isValid_getFindings _ _ _ Hvalid) as (entry & Hentry & ->).
  by econstructor.
Qed.

Lemma fileFindings_unreadable (e : t) (filePath : string) :
  readFileContent filePath = None → fileFindings e filePath = [].
Proof.
  intros Hread. unfold fileFindings, scanFile.
  destruct (scanFile_begin_cases e filePath); simpl; congruence.
Qed.

Lemma fileFindings_no_cache (e : t) (filePath fileContent : string) :
  readFileContent filePath = Some fileContent → cache e = None →
  fileFindings e filePath = scanFileContent e filePath fileContent.
Proof.
  intros Hread Hcache. unfold fileFindings, scanFile.
  destruct (scanFile_begin_cases e filePath); simpl; congruence.
Qed.

Lemma fileFindings_hit (e : t) (filePath fileContent : string) c entry :
  readFileContent filePath = Some fileContent → cache e = Some c →
  ScanCache.isValid c filePath (sha256hex fileContent) = true →
  CacheData.files (ScanCache.cache c) !! filePath = Some entry →
  fileFindings e filePath = CacheEntry.findings entry.
Proof.
  intros Hread Hcache Hvalid Hentry. unfold fileFindings, scanFile.
  destruct (scanFile_begin_cases e filePath); simpl; congruence.
Qed.

Lemma fileFindings_miss (e : t) (filePath fileContent : string) c :
  readFileContent filePath = Some fileContent → cache e = Some c →
  ScanCache.isValid c filePath (sha256hex fileContent) = false →
  fileFindings e filePath = scanFileContent e filePath fileContent.
Proof.
  intros Hread Hcache Hvalid. unfold fileFindings, scanFile.
  destruct (scanFile_begin_cases e filePath) as [| | |content c' Hr Hc Hv];
    simpl; try congruence.
  unfold scanFile_end. rewrite Hc. simpl. congruence.
Qed.

(** ** The skipped-file counter *)

Lemma skippedSoFar_insert (filePaths : list string) :
  ∀ (tasks : list Task) i filePath task task',
    filePaths !! i = Some filePath → tasks !! i = Some task →
    (skippedSoFar filePaths (<[i := task']> tasks) + skippedBy filePath task
     = skippedSoFar filePaths tasks + skippedBy filePath task')%nat.
Proof.
  induction filePaths as [|p paths IH]; intros tasks i filePath task task' Hp Ht.
  - by destruct i.
  - destruct tasks as [|t rest]; [by destruct i|].
    destruct i as [|i]; simpl in *.
    + injection Hp as ->. injection Ht as ->. lia.
    + specialize (IH rest i filePath task task' Hp Ht). lia.
Qed.

Lemma skippedSoFar_start (filePaths : list string) (n : nat) :
  skippedSoFar filePaths (replicate n Queued) = 0%nat.
Proof.
  revert n. induction filePaths as [|p paths IH]; intros [|n]; simpl; auto.
Qed.

Lemma skippedSoFar_settled (filePaths : list string) :
  ∀ (tasks : list Task) results,
    Forall2 (λ task findings, settled task = Some findings) tasks results →
    length tasks = length filePaths →
    skippedSoFar filePaths tasks = length (List.filter unreadable filePaths).
Proof.
  induction filePaths as [|p paths IH]; intros tasks results Hall Hlen.
  - by destruct tasks.
  - destruct Hall as [|task findings rest results' Htask Hrest]; [done|].
    simpl in *. rewrite (IH rest results') by (done || lia).
    destruct task; try done. simpl. by destruct (unreadable p).
Qed.

(** ** The cache during a run *)

Lemma isValid_same_entry (c c0 : ScanCache.t) (filePath contentHash : string) :
  ScanCache.enabled c = ScanCache.enabled c0 →
  ScanCache.version c = ScanCache.version c0 →
  CacheData.files (ScanCache.cache c) !! filePath
  = CacheData.files (ScanCache.cache c0) !! filePath →
  ScanCache.isValid c filePath contentHash = ScanCache.isValid c0 filePath contentHash.
Proof. intros Hen Hv Hlook. unfold ScanCache.isValid. by rewrite Hen, Hv, Hlook. Qed.

Lemma cacheEvolved_refl (e0 : t) (c : option ScanCache.t) : cacheEvolved e0 c c.
Proof. destruct c as [c|]; simpl; auto. Qed.

(** A miss tells that the initial cache had no valid entry either. *)
Lemma cacheEvolved_miss (e0 : t) (c0 c : ScanCache.t) (filePath fileContent : string) :
  cacheEvolved e0 (Some c0) (Some c) →
  readFileContent filePath = Some fileContent →
  ScanCache.isValid c filePath (sha256hex fileContent) = false →
  ScanCache.isValid c0 filePath (sha256hex fileContent) = false.
Proof.
  intros (Hen & Hv & Hentries) Hread Hmiss.
  destruct (Hentries filePath) as [Hsame|(entry & _ & content & Hread' & Hinv & _)].
  - by rewrite <- (isValid_same_entry c c0).
  - congruence.
Qed.

(** A hit hands out what an uninterrupted scan on the initial engine
    returns for the file. *)
Lemma cacheEvolved_hit (e0 : t) (c0 c : ScanCache.t) (filePath fileContent : string) entry :
  cache e0 = Some c0 →
  cacheEvolved e0 (Some c0) (Some c) →
  readFileContent filePath = Some fileContent →
  ScanCache.isValid c filePath (sha256hex fileContent) = true →
  CacheData.files (ScanCache.cache c) !! filePath = Some entry →
  CacheEntry.findings entry = fileFindings e0 filePath.
Proof.
  intros Hc0 (Hen & Hv & Hentries) Hread Hhit Hentry.
  destruct (Hentries filePath)
    as [Hsame|(entry' & Hentry' & content & Hread' & Hinv & _ & Hfindings & _)].
  - symmetry. eapply fileFindings_hit; eauto.
    + by rewrite <- (isValid_same_entry c c0).
    + by rewrite <- Hsame.
  - assert (entry' = entry) as -> by congruence.
    assert (content = fileContent) as -> by congruence.
    rewrite Hfindings. symmetry. by eapply fileFindings_miss.
Qed.

(** Storing the result of a miss keeps the relation. *)
Lemma cacheEvolved_set (e0 : t) (c0 c : ScanCache.t) (filePath fileContent : string) now :
  cacheEvolved e0 (Some c0) (Some c) →
  readFileContent filePath = Some fileContent →
  ScanCache.isValid c0 filePath (sha256hex fileContent) = false →
  cacheEvolved e0 (Some c0)
    (Some (ScanCache.set c filePath (sha256hex fileContent)
             (scanFileContent e0 filePath fileContent) now)).
Proof.
  intros (Hen & Hv & Hentries) Hread Hinv. simpl.
  rewrite ScanCacheFacts.set_enabled, ScanCacheFacts.set_version.
  split; [done|]. split; [done|]. intros path.
  destruct (ScanCache.enabled c) eqn:Hon.
  - rewrite ScanCacheFacts.set_enabled_files by done.
    destruct (decide (filePath = path)) as [<-|Hne].
    + right. rewrite lookup_insert_eq. eexists. split; [done|].
      exists fileContent. by rewrite Hv.
    + rewrite lookup_insert_ne by done. apply Hentries.
  - unfold ScanCache.set. rewrite Hon. simpl. apply Hentries.
Qed.

(** ** The invariant of a run *)

Lemma Invariant_start (e0 : t) (filePaths : list string) :
  Invariant e0 filePaths (start e0 filePaths).
Proof.
  split; simpl; try done.
  - by rewrite length_replicate.
  - apply cacheEvolved_refl.
  - intros i filePath task _ [-> _]%lookup_replicate. exact I.
  - rewrite skippedSoFar_start. lia.
Qed.

(** Replacing the state of one task, together with a new engine state. *)
Lemma Invariant_update (e0 e' : t) (filePaths : list string) (r : Run)
    i filePath task task' done calls :
  Invariant e0 filePaths r →
  filePaths !! i = Some filePath → tasks r !! i = Some task →
  ruleGroups e' = ruleGroups (engine r) →
  ignoredRules e' = ignoredRules (engine r) →
  cacheEvolved e0 (cache e0) (cache e') →
  taskSound e0 filePath task' →
  (skippedFiles e' + skippedBy filePath task
   = skippedFiles (engine r) + skippedBy filePath task')%nat →
  Invariant e0 filePaths (mkRun e' (<[i := task']> (tasks r)) done calls).
Proof.
  intros [Hlen Hg Hi Hc Ht Hs] Hpath Htask Hg' Hi' Hc' Hsound Hcount.
  split; simpl; try congruence.
  - by rewrite length_insert.
  - intros j path tj Hpj Htj. destruct (decide (i = j)) as [<-|Hne].
    + rewrite list_lookup_insert_eq in Htj by (by eapply lookup_lt_Some).
      congruence.
    + rewrite list_lookup_insert_ne in Htj by done. by eapply Ht.
  - pose proof (skippedSoFar_insert filePaths (tasks r) i filePath task task' Hpath Htask).
    lia.
Qed.

Lemma step_Invariant (e0 : t) (filePaths : list string) (r : Run) (ev : Event) :
  Invariant e0 filePaths r → Invariant e0 filePaths (step filePaths r ev).
Proof.
  intros Hinv. destruct ev as [i now]. unfold step.
  destruct (filePaths !! i) as [filePath|] eqn:Hpath; [|done].
  destruct (tasks r !! i) as [[|contentHash findings|findings]|] eqn:Htask; try done.
  - (* the task gets past the read *)
    pose proof (inv_groups _ _ _ Hinv) as Hg.
    pose proof (inv_ignored _ _ _ Hinv) as Hi.
    pose proof (inv_cache _ _ _ Hinv) as Hc.
    destruct (scanFile_begin_cases (engine r) filePath)
      as [Hread|content Hread Hnone|content c entry Hread Hsome Hvalid Hentry
          |content c Hread Hsome Hvalid]; unfold settle.
    + eapply Invariant_update; eauto; simpl.
      * by rewrite fileFindings_unreadable.
      * unfold unreadable. rewrite Hread. lia.
    + eapply Invariant_update; eauto; simpl.
      * rewrite Hnone in Hc. destruct (cache e0) eqn:Hc0; [done|].
        rewrite (fileFindings_no_cache e0 _ _ Hread Hc0).
        by apply scanFileContent_same_rules.
      * unfold unreadable. rewrite Hread. lia.
    + eapply Invariant_update; eauto; simpl.
      * rewrite Hsome in Hc. destruct (cache e0) as [c0|] eqn:Hc0; [|done].
        by eapply cacheEvolved_hit.
      * unfold unreadable. rewrite Hread. lia.
    + eapply Invariant_update; eauto; simpl.
      * rewrite Hsome in Hc. destruct (cache e0) as [c0|] eqn:Hc0; [|done].
        exists c0, content. repeat split; try done.
        -- by apply scanFileContent_same_rules.
        -- by eapply cacheEvolved_miss.
      * unfold unreadable. rewrite Hread. lia.
  - (* the task stores the result of its miss *)
    pose proof (inv_cache _ _ _ Hinv) as Hc.
    destruct (inv_tasks _ _ _ Hinv i filePath _ Hpath Htask)
      as (c0 & content & Hc0 & Hread & -> & -> & Hinvalid).
    rewrite Hc0 in Hc. unfold scanFile_end.
    destruct (cache (engine r)) as [c|] eqn:Hsome; [|done].
    unfold settle. eapply Invariant_update; eauto; simpl.
    + rewrite Hc0. by apply cacheEvolved_set.
    + symmetry. by eapply fileFindings_miss.
Qed.

Lemma run_Invariant (e0 : t) (filePaths : list string) (schedule : list Event) :
  ∀ r, Invariant e0 filePaths r →
       Invariant e0 filePaths (foldl (step filePaths) r schedule).
Proof.
  induction schedule as [|ev rest IH]; intros r Hinv; simpl; [done|].
  by apply IH, step_Invariant.
Qed.

(** Whatever the schedule, tasks that have settled hold what an
    uninterrupted scan on the initial engine returns for their files. *)
Lemma settled_results (e0 : t) (filePaths : list string) (r : Run) results :
  Invariant e0 filePaths r →
  mapM settled (tasks r) = Some results →
  results = map (fileFindings e0) filePaths.
Proof.
  intros Hinv Hall%mapM_Some. apply list_eq. intros i.
  pose proof (inv_length _ _ _ Hinv) as Hlen.
  pose proof (Forall2_length _ _ _ Hall) as Hlen'.
  rewrite list_lookup_fmap.
  destruct (filePaths !! i) as [filePath|] eqn:Hpath; simpl.
  - destruct (lookup_lt_is_Some_2 (tasks r) i) as [task Htask].
    { rewrite Hlen. by eapply lookup_lt_Some. }
    destruct (Forall2_lookup_l _ _ _ _ _ Hall Htask) as (findings & Hres & Hsettled).
    rewrite Hres. f_equal.
    pose proof (inv_tasks _ _ _ Hinv i filePath task Hpath Htask) as Hsound.
    destruct task; simpl in Hsettled; try done. by injection Hsettled as <-.
  - apply lookup_ge_None. apply lookup_ge_None in Hpath. lia.
Qed.

(** ** Every fair schedule lets the run finish *)

Lemma step_length (filePaths : list string) (r : Run) (ev : Event) :
  length (tasks (step filePaths r ev)) = length (tasks r).
Proof.
  destruct ev as [i now]. unfold step, settle.
  destruct (filePaths !! i); [|done].
  destruct (tasks r !! i) as [[| |]|]; try done.
  - destruct (scanFile_begin (engine r) _) as [[|] ?]; simpl; by rewrite length_insert.
  - destruct (scanFile_end _ _ _ _ _). simpl. by rewrite length_insert.
Qed.

Lemma step_other (filePaths : list string) (r : Run) (i j : nat) (now : Z) :
  i ≠ j → tasks (step filePaths r (i, now)) !! j = tasks r !! j.
Proof.
  intros Hne. unfold step, settle.
  destruct (filePaths !! i); [|done].
  destruct (tasks r !! i) as [[| |]|]; try done.
  - destruct (scanFile_begin (engine r) _) as [[|] ?]; simpl;
      by rewrite list_lookup_insert_ne.
  - destruct (scanFile_end _ _ _ _ _). simpl. by rewrite list_lookup_insert_ne.
Qed.

(** A resumption moves its task one phase on, unless it has settled. *)
Lemma step_self (filePaths : list string) (r : Run) (i : nat) (now : Z) filePath task :
  filePaths !! i = Some filePath → tasks r !! i = Some task →
  ∃ task', tasks (step filePaths r (i, now)) !! i = Some task'
           ∧ (Nat.min 2 (S (phase task)) ≤ phase task')%nat.
Proof.
  intros Hpath Htask. unfold step, settle. rewrite Hpath, Htask.
  assert (Hlt : (i < length (tasks r))%nat) by (by eapply lookup_lt_Some).
  destruct task as [|contentHash findings|findings].
  - destruct (scanFile_begin (engine r) _) as [[|] ?]; simpl;
      rewrite list_lookup_insert_eq by done; eexists; split; try done; simpl; lia.
  - destruct (scanFile_end _ _ _ _ _). simpl.
    rewrite list_lookup_insert_eq by done. eexists; split; try done; simpl; lia.
  - exists (Settled findings). split; [done|]. simpl. lia.
Qed.

Lemma resumptions_cons (i j : nat) (now : Z) (schedule : list Event) :
  resumptions i ((j, now) :: schedule)
  = ((if Nat.eqb j i then 1 else 0) + resumptions i schedule)%nat.
Proof. unfold resumptions. simpl. by destruct (Nat.eqb j i). Qed.

Lemma run_phase (filePaths : list string) (i : nat) filePath (schedule : list Event) :
  filePaths !! i = Some filePath →
  ∀ r task, tasks r !! i = Some task →
    ∃ task', tasks (foldl (step filePaths) r schedule) !! i = Some task'
             ∧ (Nat.min 2 (phase task + resumptions i schedule) ≤ phase task')%nat.
Proof.
  intros Hpath. induction schedule as [|[j now] rest IH]; intros r task Htask.
  - exists task. split; [done|]. change (resumptions i []) with 0%nat. lia.
  - rewrite resumptions_cons. cbn [foldl].
    destruct (Nat.eqb_spec j i) as [->|Hne].
    + destruct (step_self filePaths r i now filePath task Hpath Htask)
        as (task1 & Htask1 & Hphase1).
      destruct (IH _ _ Htask1) as (task' & Htask' & Hphase').
      exists task'. split; [done|]. lia.
    + destruct (IH (step filePaths r (j, now)) task) as (task' & Htask' & Hphase').
      { by rewrite step_other. }
      exists task'. split; [done|]. lia.
Qed.

Lemma run_length (filePaths : list string) (schedule : list Event) :
  ∀ r, length (tasks (foldl (step filePaths) r schedule)) = length (tasks r).
Proof.
  induction schedule as [|ev rest IH]; intros r; simpl; [done|].
  by rewrite IH, step_length.
Qed.

Lemma fair_settles (e : t) (filePaths : list string) (schedule : list Event) :
  fair (length filePaths) schedule →
  is_Some (mapM settled (tasks (foldl (step filePaths) (start e filePaths) schedule))).
Proof.
  intros Hfair. apply mapM_is_Some, Forall_lookup. intros i task' Htask'.
  assert (Hlen : length (tasks (foldl (step filePaths) (start e filePaths) schedule))
                 = length filePaths).
  { rewrite run_length. apply length_replicate. }
  assert (Hi : (i < length filePaths)%nat).
  { rewrite <- Hlen. by eapply lookup_lt_Some. }
  destruct (lookup_lt_is_Some_2 filePaths i Hi) as [filePath Hpath].
  destruct (run_phase filePaths i filePath schedule Hpath (start e filePaths) Queued)
    as (task'' & Htask'' & Hphase).
  { simpl. by apply lookup_replicate_2. }
  assert (task'' = task') as -> by congruence.
  specialize (Hfair i Hi).
  assert (Hdone : (2 ≤ phase task')%nat) by lia.
  destruct task'; simpl in Hdone; [lia|lia|by eexists].
Qed.

Lemma resumptions_inOrder (now : Z) (i n : nat) :
  ∀ a, (a ≤ i < a + n)%nat →
       resumptions i (flat_map (fun j => [(j, now); (j, now)]) (seq a n)) = 2%nat.
Proof.
  unfold resumptions. induction n as [|n IH]; intros a Hi; [lia|]. simpl.
  destruct (Nat.eqb_spec a i) as [->|Hne]; simpl.
  - f_equal. f_equal. clear IH Hi. generalize (S i), (Nat.lt_succ_diag_r i).
    induction n as [|n IH]; intros b Hb; simpl; [done|].
    destruct (Nat.eqb_spec b i); [lia|]. apply IH. lia.
  - apply IH. lia.
Qed.

Lemma inOrder_fair (n : nat) (now : Z) : fair n (inOrder n now).
Proof.
  intros i Hi. unfold inOrder. rewrite resumptions_inOrder; lia.
Qed.

(** ** What a finished run returns *)

Lemma fileFindings_counters (e : t) (filePath : string) (skipped cached : nat) :
  fileFindings (with_cachedFiles (with_skippedFiles e skipped) cached) filePath
  = fileFindings e filePath.
Proof.
  set (e' := with_cachedFiles (with_skippedFiles e skipped) cached).
  assert (Hscan : ∀ content, scanFileContent e' filePath content
                             = scanFileContent e filePath content).
  { intros content. by apply scanFileContent_same_rules. }
  unfold fileFindings, scanFile, scanFile_begin, scanFile_catch, scanFile_end.
  destruct (readFileContent filePath) as [content|]; [|done].
  change (cache e') with (cache e). rewrite Hscan.
  destruct (cache e) as [c|] eqn:Hc; [|done].
  destruct (ScanCache.isValid c filePath _); [|by change (cache e') with (cache e); rewrite Hc].
  destruct (ScanCache.getFindings c filePath); [done|].
  by change (cache e') with (cache e); rewrite Hc.
Qed.

Lemma saveCache_skippedFiles (e : t) (now : Z) (writeOk : bool) :
  skippedFiles (saveCache e now writeOk) = skippedFiles e.
Proof. unfold saveCache. by destruct (cache e). Qed.

Lemma runAll_returns (e : t) (filePaths : list string) (schedule : list Event)
    (saveAt : Z) (writeOk : bool) :
  fair (length filePaths) schedule →
  is_Some (runAll e filePaths schedule saveAt writeOk).
Proof.
  intros Hfair. unfold runAll.
  destruct (fair_settles e filePaths schedule Hfair) as [results ->]. by eexists.
Qed.

Lemma runAll_spec (e : t) (filePaths : list string) (schedule : list Event)
    (saveAt : Z) (writeOk : bool) (o : Outcome) :
  runAll e filePaths schedule saveAt writeOk = Some o →
  ScanResult.findings (result o) = flat_map (fileFindings e) filePaths
  ∧ ScanResult.scannedFiles (result o) = length filePaths
  ∧ skippedFiles (after o)
    = (skippedFiles e + length (List.filter unreadable filePaths))%nat.
Proof.
  unfold runAll.
  pose proof (run_Invariant e filePaths schedule _ (Invariant_start e filePaths)) as Hinv.
  destruct (mapM settled _) as [results|] eqn:Hall; [|done].
  intros [= <-]. simpl. split; [|split; [done|]].
  - rewrite (settled_results _ _ _ _ Hinv Hall). symmetry. apply flat_map_concat_map.
  - rewrite saveCache_skippedFiles, (inv_skipped _ _ _ Hinv). f_equal.
    apply mapM_Some in Hall.
    eapply skippedSoFar_settled; [done|]. apply (inv_length _ _ _ Hinv).
Qed.

Lemma runRulesOnFiles_spec (e : t) (filePaths : list string) (schedule : list Event)
    (saveAt : Z) (writeOk : bool) (o : Outcome) :
  runRulesOnFiles e filePaths schedule saveAt writeOk = Some o →
  ScanResult.findings (result o) = flat_map (fileFindings e) filePaths
  ∧ ScanResult.scannedFiles (result o) = length filePaths
  ∧ ScanResult.skippedFiles (result o)
    = (let n := length (List.filter unreadable filePaths) in
       if (0 <? n)%nat then Some n else None).
Proof.
  unfold runRulesOnFiles. intros Hrun.
  destruct (runAll_spec _ _ _ _ _ _ Hrun) as (Hfindings & Hscanned & Hskipped).
  split; [|split; [done|]].
  - rewrite Hfindings. apply flat_map_ext. intros p. apply fileFindings_counters.
  - simpl in Hskipped. revert Hrun. unfold runAll.
    destruct (mapM settled _); [|done]. intros [= <-]. simpl in *.
    by rewrite Hskipped.
Qed.

(** [runRulesOnProject] is the same pipeline over the four buckets of the
    walker, concatenated. *)
Lemma runRulesOnProject_spec (e : t) (rootDir : string) (schedule : list Event)
    (saveAt : Z) (writeOk : bool) (o : Outcome) :
  runRulesOnProject e rootDir schedule saveAt writeOk = Some o →
  let fileGroup := walkProjectFiles rootDir (excludedPaths e) in
  ScanResult.findings (result o)
  = flat_map (fileFindings e)
      (FileGroup.jsFiles fileGroup ++ FileGroup.jsonFiles fileGroup
       ++ FileGroup.xmlFiles fileGroup ++ FileGroup.plistFiles fileGroup).
Proof.
  intros Hrun fileGroup. unfold runRulesOnProject in Hrun.
  destruct (runAll_spec _ _ _ _ _ _ Hrun) as (-> & _).
  apply flat_map_ext. intros p. apply fileFindings_counters.
Qed.

(** ** File extensions *)

Lemma endsWith_lastChar (s suffix : string) (a : ascii) :
  endsWith s suffix = true → lastChar suffix = Some a → lastChar s = Some a.
Proof.
  induction s as [|b rest IH]; intros Hends Hlast.
  - destruct suffix; [done|discriminate].
  - change (String.eqb (String b rest) suffix || endsWith rest suffix = true) in Hends.
    apply orb_true_iff in Hends as [Heq|Hrest].
    + apply String.eqb_eq in Heq. by rewrite <- Heq in Hlast.
    + specialize (IH Hrest Hlast). simpl. by destruct rest.
Qed.

Lemma endsWith_exclusive (s suffix suffix' : string) (a a' : ascii) :
  lastChar suffix = Some a → lastChar suffix' = Some a' → a ≠ a' →
  endsWith s suffix = true → endsWith s suffix' = false.
Proof.
  intros Ha Ha' Hne Hends. destruct (endsWith s suffix') eqn:Hends'; [|done].
  pose proof (endsWith_lastChar _ _ _ Hends Ha).
  pose proof (endsWith_lastChar _ _ _ Hends' Ha'). congruence.
Qed.

Lemma isCodePath_exclusive (filePath suffix : string) (a : ascii) :
  lastChar suffix = Some a → a ≠ "s"%char → a ≠ "x"%char →
  endsWith filePath suffix = true → isCodePath filePath = false.
Proof.
  intros Ha Hs Hx Hends. unfold isCodePath.
  rewrite (endsWith_exclusive filePath suffix ".js" a "s"%char) by done.
  rewrite (endsWith_exclusive filePath suffix ".jsx" a "x"%char) by done.
  rewrite (endsWith_exclusive filePath suffix ".ts" a "s"%char) by done.
  by rewrite (endsWith_exclusive filePath suffix ".tsx" a "x"%char) by done.
Qed.

(** ** The claims about the engine *)

(** C8, as the code has it. The context built for a file carries at most
    one of the four payloads, and the extension decides which one it can be:
    [ast] on [.js .jsx .ts .tsx] when the parser succeeds, [config] on
    [.json] when the text parses to a truthy value, [xmlContent] on [.xml]
    and [plistContent] on [.plist], both the raw text. On a parse failure,
    and on any other extension, all four are absent. *)
Theorem context_payload_by_extension (filePath fileContent : string) :
  let context := prepareContext filePath fileContent in
  (RuleContext.populated context ≤ 1)%nat
  ∧ RuleContext.filePath context = filePath
  ∧ RuleContext.fileContent context = fileContent
  ∧ RuleContext.ast context
    = (if isCodePath filePath then parseJSFile filePath fileContent else None)
  ∧ RuleContext.config context
    = (if endsWith filePath ".json"
       then config ← parseJsonSafe fileContent; if truthy config then Some config else None
       else None)
  ∧ RuleContext.xmlContent context
    = (if endsWith filePath ".xml" then Some fileContent else None)
  ∧ RuleContext.plistContent context
    = (if endsWith filePath ".plist" then Some fileContent else None).
Proof.
  unfold prepareContext.
  destruct (isCodePath filePath) eqn:Hcode;
    destruct (endsWith filePath ".json") eqn:Hjson;
    try (rewrite (isCodePath_exclusive filePath ".json" "n"%char) in Hcode by done;
         discriminate);
    destruct (endsWith filePath ".xml") eqn:Hxml;
    try (rewrite (isCodePath_exclusive filePath ".xml" "l"%char) in Hcode by done;
         discriminate);
    try (rewrite (endsWith_exclusive filePath ".xml" ".json" "l"%char "n"%char) in Hjson
           by done; discriminate);
    destruct (endsWith filePath ".plist") eqn:Hplist;
    try (rewrite (isCodePath_exclusive filePath ".plist" "t"%char) in Hcode by done;
         discriminate);
    try (rewrite (endsWith_exclusive filePath ".plist" ".json" "t"%char "n"%char) in Hjson
           by done; discriminate);
    try (rewrite (endsWith_exclusive filePath ".plist" ".xml" "t"%char "l"%char) in Hxml
           by done; discriminate).
  all: try destruct (parseJSFile filePath fileContent).
  all: try (destruct (parseJsonSafe fileContent) as [config|]; simpl;
            [destruct (truthy config)|]).
  all: repeat split; unfold RuleContext.populated; simpl; done || lia.
Qed.

(** C2. The findings of a run are the per-file findings concatenated in the
    order of the input list. The right-hand side does not mention the
    schedule: the order in which the tasks are resumed and settle has no
    influence. *)
Theorem findings_in_input_order (e : t) (filePaths : list string)
    (schedule : list Event) (saveAt : Z) (writeOk : bool) (o : Outcome) :
  runRulesOnFiles e filePaths schedule saveAt writeOk = Some o →
  ScanResult.findings (result o) = concat (map (fileFindings e) filePaths).
Proof.
  intros Hrun. destruct (runRulesOnFiles_spec _ _ _ _ _ _ Hrun) as (-> & _).
  apply flat_map_concat_map.
Qed.

(** C1. A run without a cache and a run with a cache that holds no entry
    return the same findings, whatever the two schedules. *)
Theorem cache_does_not_change_findings (e : t) (c : ScanCache.t)
    (filePaths : list string) (schedule schedule' : list Event)
    (saveAt saveAt' : Z) (writeOk writeOk' : bool) (o o' : Outcome) :
  CacheData.files (ScanCache.cache c) = ∅ →
  runRulesOnFiles (disableCache e) filePaths schedule saveAt writeOk = Some o →
  runRulesOnFiles (with_cache e (Some c)) filePaths schedule' saveAt' writeOk' = Some o' →
  ScanResult.findings (result o) = ScanResult.findings (result o').
Proof.
  intros Hempty Hrun Hrun'.
  destruct (runRulesOnFiles_spec _ _ _ _ _ _ Hrun) as (-> & _).
  destruct (runRulesOnFiles_spec _ _ _ _ _ _ Hrun') as (-> & _).
  apply flat_map_ext. intros filePath.
  destruct (readFileContent filePath) as [content|] eqn:Hread.
  - rewrite (fileFindings_no_cache (disableCache e) _ content) by done.
    rewrite (fileFindings_miss (with_cache e (Some c)) _ content c).
    + by apply scanFileContent_same_rules.
    + done.
    + done.
    + unfold ScanCache.isValid. rewrite Hempty, lookup_empty.
      by destruct (ScanCache.enabled c).
  - by rewrite !fileFindings_unreadable.
Qed.

(** C5. Scanning an unreadable file adds one to the skipped-file counter
    and returns no findings. A run over a list that contains such a file
    still returns under every fair schedule: its findings are those of the
    readable files, in order, and its [skippedFiles] is the number of
    unreadable entries of the list. *)
Theorem unreadable_file_is_skipped (e : t) (filePaths : list string) (filePath : string)
    (now : Z) (schedule : list Event) (saveAt : Z) (writeOk : bool) :
  filePath ∈ filePaths →
  readFileContent filePath = None →
  fair (length filePaths) schedule →
  scanFile e filePath now = ([], with_skippedFiles e (S (skippedFiles e)))
  ∧ ∃ o, runRulesOnFiles e filePaths schedule saveAt writeOk = Some o
         ∧ ScanResult.findings (result o)
           = concat (map (fileFindings e)
                         (List.filter (fun path => negb (unreadable path)) filePaths))
         ∧ ScanResult.scannedFiles (result o) = length filePaths
         ∧ ScanResult.skippedFiles (result o)
           = Some (length (List.filter unreadable filePaths)).
Proof.
  intros Hin Hread Hfair. split.
  - unfold scanFile, scanFile_begin. by rewrite Hread.
  - destruct (runAll_returns (with_cachedFiles (with_skippedFiles e 0) 0)
                filePaths schedule saveAt writeOk Hfair) as [o Ho].
    exists o. split; [done|].
    destruct (runRulesOnFiles_spec _ _ _ _ _ _ Ho) as (-> & -> & ->).
    split; [|split; [done|]].
    + rewrite <- flat_map_concat_map. clear Hin Hfair Ho.
      induction filePaths as [|path paths IH]; simpl; [done|].
      unfold unreadable at 1.
      destruct (readFileContent path) eqn:Hpath; simpl.
      * by rewrite IH.
      * by rewrite fileFindings_unreadable.
    + simpl. assert (Hpos : (0 < length (List.filter unreadable filePaths))%nat).
      { assert (Hf : filePath ∈ List.filter unreadable filePaths).
        { apply list_elem_of_In, filter_In. split; [by apply list_elem_of_In|].
          unfold unreadable. by rewrite Hread. }
        destruct (List.filter unreadable filePaths); [by apply not_elem_of_nil in Hf|].
        simpl. lia. }
      by apply Nat.ltb_lt in Hpos as ->.
Qed.

(** ** Bookkeeping: progress calls, counters, configuration *)

Lemma tally_insert (weight : string → Task → nat) (filePaths : list string) :
  ∀ (tasks : list Task) i filePath task task',
    filePaths !! i = Some filePath → tasks !! i = Some task →
    (tally weight filePaths (<[i := task']> tasks) + weight filePath task
     = tally weight filePaths tasks + weight filePath task')%nat.
Proof.
  induction filePaths as [|p paths IH]; intros tasks i filePath task task' Hp Ht.
  - by destruct i.
  - destruct tasks as [|t rest]; [by destruct i|].
    destruct i as [|i]; simpl in *.
    + injection Hp as ->. injection Ht as ->. lia.
    + specialize (IH rest i filePath task task' Hp Ht). lia.
Qed.

Lemma tally_start (weight : string → Task → nat) (filePaths : list string) (n : nat) :
  (∀ filePath, weight filePath Queued = 0%nat) →
  tally weight filePaths (replicate n Queued) = 0%nat.
Proof.
  intros Hq. revert n. induction filePaths as [|p paths IH]; intros [|n]; simpl; auto.
  by rewrite Hq, IH.
Qed.

Lemma tally_settled (weight : string → Task → nat) (count : string → nat)
    (filePaths : list string) :
  (∀ filePath findings, weight filePath (Settled findings) = count filePath) →
  ∀ (tasks : list Task) results,
    Forall2 (λ task findings, settled task = Some findings) tasks results →
    length tasks = length filePaths →
    tally weight filePaths tasks = list_sum (map count filePaths).
Proof.
  intros Hw. induction filePaths as [|p paths IH]; intros tasks results Hall Hlen.
  - by destruct tasks.
  - destruct Hall as [|task findings rest results' Htask Hrest]; [done|].
    simpl in *. rewrite (IH rest results') by (done || lia).
    destruct task; try done. by rewrite Hw.
Qed.

Lemma list_sum_ones {A : Type} (l : list A) :
  list_sum (map (fun _ => 1%nat) l) = length l.
Proof. induction l; simpl; auto. Qed.

Lemma list_sum_indicator {A : Type} (f : A → bool) (l : list A) :
  list_sum (map (fun x => if f x then 0%nat else 1%nat) l)
  = length (List.filter (fun x => negb (f x)) l).
Proof. induction l as [|x l IH]; simpl; [done|]. destruct (f x); simpl; lia. Qed.

Lemma length_filter_split {A : Type} (f : A → bool) (l : list A) :
  (length (List.filter f l) + length (List.filter (fun x => negb (f x)) l))%nat = length l.
Proof. induction l as [|x l IH]; simpl; [done|]. destruct (f x); simpl; lia. Qed.

Lemma progress_snoc (total done : nat) :
  map (fun k => (k, total)) (seq 1 (S done))
  = map (fun k => (k, total)) (seq 1 done) ++ [(S done, total)].
Proof. by rewrite seq_S, map_app. Qed.

Lemma Bookkeeping_start (e0 : t) (filePaths : list string) :
  Bookkeeping e0 filePaths (start e0 filePaths).
Proof.
  split; simpl; try done.
  - by rewrite tally_start.
  - lia.
Qed.

Lemma Bookkeeping_settle (e0 e' : t) (filePaths : list string) (r : Run)
    i filePath task findings :
  Bookkeeping e0 filePaths r →
  filePaths !! i = Some filePath → tasks r !! i = Some task →
  settledOnes filePath task = 0%nat →
  excludedPaths e' = excludedPaths (engine r) →
  concurrency e' = concurrency (engine r) →
  (cachedFiles e' + readOnes filePath task
   ≤ cachedFiles (engine r) + readOnes filePath (Settled findings))%nat →
  (cache e' = None → cache (engine r) = None ∧ cachedFiles e' = cachedFiles (engine r)) →
  Bookkeeping e0 filePaths (settle (length filePaths) i findings e' r).
Proof.
  intros [Hdone Hcalls Hex Hconc Hcached Hunc] Hpath Htask Hnot Hex' Hconc' Hc' Hunc'.
  pose proof (tally_insert settledOnes filePaths (tasks r) i filePath task
                (Settled findings) Hpath Htask) as Hs.
  pose proof (tally_insert readOnes filePaths (tasks r) i filePath task
                (Settled findings) Hpath Htask) as Hr.
  unfold settle. split; cbn [engine tasks completed progress].
  - simpl in Hs. lia.
  - by rewrite progress_snoc, Hcalls.
  - congruence.
  - congruence.
  - lia.
  - intros Hnone. destruct (Hunc' Hnone) as [Hnone' ->]. auto.
Qed.

Lemma step_Bookkeeping (e0 : t) (filePaths : list string) (r : Run) (ev : Event) :
  Bookkeeping e0 filePaths r → Bookkeeping e0 filePaths (step filePaths r ev).
Proof.
  intros Hbk. destruct ev as [i now]. unfold step.
  destruct (filePaths !! i) as [filePath|] eqn:Hpath; [|done].
  destruct (tasks r !! i) as [[|contentHash findings|findings]|] eqn:Htask; try done.
  - destruct (scanFile_begin_cases (engine r) filePath)
      as [Hread|content Hread Hnone|content c entry Hread Hsome Hvalid Hentry
          |content c Hread Hsome Hvalid].
    + eapply Bookkeeping_settle; eauto; simpl; auto with lia.
    + eapply Bookkeeping_settle; eauto; simpl; auto with lia.
    + eapply Bookkeeping_settle; eauto; simpl.
      * unfold unreadable. rewrite Hread. lia.
      * congruence.
    + destruct Hbk as [Hdone Hcalls Hex Hconc Hcached Hunc].
      pose proof (tally_insert settledOnes filePaths (tasks r) i filePath Queued
                    (Scanning (sha256hex content)
                       (scanFileContent (engine r) filePath content)) Hpath Htask) as Hs.
      pose proof (tally_insert readOnes filePaths (tasks r) i filePath Queued
                    (Scanning (sha256hex content)
                       (scanFileContent (engine r) filePath content)) Hpath Htask) as Hr.
      split; simpl; try done; simpl in *; lia.
  - unfold scanFile_end, scanFile_catch.
    destruct (cache (engine r)) as [c|] eqn:Hsome.
    + eapply Bookkeeping_settle; eauto; simpl; auto with lia. congruence.
    + eapply Bookkeeping_settle; eauto; simpl; auto with lia.
Qed.

Lemma run_Bookkeeping (e0 : t) (filePaths : list string) (schedule : list Event) :
  ∀ r, Bookkeeping e0 filePaths r →
       Bookkeeping e0 filePaths (foldl (step filePaths) r schedule).
Proof.
  induction schedule as [|ev rest IH]; intros r Hbk; simpl; [done|].
  by apply IH, step_Bookkeeping.
Qed.

Lemma saveCache_fields (e : t) (now : Z) (writeOk : bool) :
  ruleGroups (saveCache e now writeOk) = ruleGroups e
  ∧ ignoredRules (saveCache e now writeOk) = ignoredRules e
  ∧ excludedPaths (saveCache e now writeOk) = excludedPaths e
  ∧ concurrency (saveCache e now writeOk) = concurrency e
  ∧ cachedFiles (saveCache e now writeOk) = cachedFiles e
  ∧ cache (saveCache e now writeOk)
    = (fun c => ScanCache.save c now writeOk) <$> cache e.
Proof. unfold saveCache. destruct (cache e) eqn:Hc; repeat split. by rewrite Hc. Qed.

Lemma save_fields (c : ScanCache.t) (now : Z) (writeOk : bool) :
  CacheData.files (ScanCache.cache (ScanCache.save c now writeOk))
  = CacheData.files (ScanCache.cache c)
  ∧ ScanCache.version (ScanCache.save c now writeOk) = ScanCache.version c
  ∧ ScanCache.enabled (ScanCache.save c now writeOk) = ScanCache.enabled c.
Proof.
  unfold ScanCache.save.
  destruct (ScanCache.enabled c) eqn:Hen, (ScanCache.isDirty c), writeOk;
    simpl; repeat split; done.
Qed.

(** The state in which the tasks of a finished run leave the engine. *)
Lemma runAll_final (e : t) (filePaths : list string) (schedule : list Event)
    (saveAt : Z) (writeOk : bool) (o : Outcome) :
  runAll e filePaths schedule saveAt writeOk = Some o →
  ∃ r results,
    r = foldl (step filePaths) (start e filePaths) schedule
    ∧ mapM settled (tasks r) = Some results
    ∧ Invariant e filePaths r ∧ Bookkeeping e filePaths r
    ∧ after o = saveCache (engine r) saveAt writeOk
    ∧ calls o = progress r
    ∧ ScanResult.cachedFiles (result o)
      = (if (0 <? cachedFiles (engine r))%nat then Some (cachedFiles (engine r)) else None).
Proof.
  unfold runAll. intros Hrun.
  destruct (mapM settled _) as [results|] eqn:Hall; [|done].
  injection Hrun as <-. eexists _, results. split; [done|]. split; [done|].
  split; [apply run_Invariant, Invariant_start|].
  split; [apply run_Bookkeeping, Bookkeeping_start|].
  simpl. destruct (saveCache_fields (engine (foldl (step filePaths) (start e filePaths) schedule))
                     saveAt writeOk) as (_ & _ & _ & _ & -> & _).
  done.
Qed.

(** Whatever the schedule, the progress callback is called once per file,
    with [current] running from [1] to the number of files and [total]
    always that number. *)
Theorem progress_counts_up (e : t) (filePaths : list string) (schedule : list Event)
    (saveAt : Z) (writeOk : bool) (o : Outcome) :
  runRulesOnFiles e filePaths schedule saveAt writeOk = Some o →
  calls o = map (fun current => (current, length filePaths)) (seq 1 (length filePaths)).
Proof.
  intros Hrun. unfold runRulesOnFiles in Hrun.
  destruct (runAll_final _ _ _ _ _ _ Hrun)
    as (r & results & _ & Hall & Hinv & Hbk & _ & -> & _).
  rewrite (bk_progress _ _ _ Hbk), (bk_completed _ _ _ Hbk).
  apply mapM_Some in Hall.
  rewrite (tally_settled settledOnes (fun _ => 1%nat) filePaths
             (fun _ _ => eq_refl) _ _ Hall (inv_length _ _ _ Hinv)).
  by rewrite list_sum_ones.
Qed.

(** The counters of a result are consistent: the cached files are at most
    the readable files of the list, skipped and cached files together at
    most the scanned files, and an engine without cache reports no cached
    file. *)
Theorem counters_are_bounded (e : t) (filePaths : list string) (schedule : list Event)
    (saveAt : Z) (writeOk : bool) (o : Outcome) :
  runRulesOnFiles e filePaths schedule saveAt writeOk = Some o →
  let skipped := default 0%nat (ScanResult.skippedFiles (result o)) in
  let cached := default 0%nat (ScanResult.cachedFiles (result o)) in
  (cached ≤ length (List.filter (fun path => negb (unreadable path)) filePaths))%nat
  ∧ (skipped + cached ≤ ScanResult.scannedFiles (result o))%nat
  ∧ (cache e = None → ScanResult.cachedFiles (result o) = None).
Proof.
  intros Hrun skipped cached.
  destruct (runRulesOnFiles_spec _ _ _ _ _ _ Hrun) as (_ & Hscanned & Hskipped).
  unfold runRulesOnFiles in Hrun.
  destruct (runAll_final _ _ _ _ _ _ Hrun)
    as (r & results & _ & Hall & Hinv & Hbk & _ & _ & Hcached).
  pose proof (bk_cached _ _ _ Hbk) as Hle. apply mapM_Some in Hall.
  rewrite (tally_settled readOnes (fun path => if unreadable path then 0%nat else 1%nat)
             filePaths (fun _ _ => eq_refl) _ _ Hall (inv_length _ _ _ Hinv)) in Hle.
  rewrite list_sum_indicator in Hle. simpl in Hle.
  pose proof (length_filter_split unreadable filePaths) as Hsplit.
  assert (Hc : cached = cachedFiles (engine r)).
  { unfold cached. rewrite Hcached. destruct (Nat.ltb_spec 0 (cachedFiles (engine r))); simpl; lia. }
  assert (Hs : skipped = length (List.filter unreadable filePaths)).
  { unfold skipped. rewrite Hskipped. simpl.
    destruct (Nat.ltb_spec 0 (length (List.filter unreadable filePaths))); simpl; lia. }
  split; [lia|]. split; [rewrite Hscanned; lia|].
  intros Hnone. rewrite Hcached.
  pose proof (inv_cache _ _ _ Hinv) as Hevolved. simpl in Hevolved.
  rewrite Hnone in Hevolved. destruct (cache (engine r)) eqn:Hc'; [done|].
  by rewrite (bk_uncached _ _ _ Hbk Hc').
Qed.

(** A run never reconfigures the engine: the rule groups, the ignore set,
    the excluded paths and the concurrency are afterwards what they were,
    a cache is neither attached nor detached, and the cache keeps its
    version and its enabled flag. *)
Theorem run_keeps_configuration (e : t) (filePaths : list string)
    (schedule : list Event) (saveAt : Z) (writeOk : bool) (o : Outcome) :
  runRulesOnFiles e filePaths schedule saveAt writeOk = Some o →
  ruleGroups (after o) = ruleGroups e
  ∧ ignoredRules (after o) = ignoredRules e
  ∧ excludedPaths (after o) = excludedPaths e
  ∧ concurrency (after o) = concurrency e
  ∧ ScanCache.version <$> cache (after o) = ScanCache.version <$> cache e
  ∧ ScanCache.enabled <$> cache (after o) = ScanCache.enabled <$> cache e.
Proof.
  intros Hrun. unfold runRulesOnFiles in Hrun.
  destruct (runAll_final _ _ _ _ _ _ Hrun)
    as (r & results & _ & _ & Hinv & Hbk & -> & _).
  destruct (saveCache_fields (engine r) saveAt writeOk)
    as (-> & -> & -> & -> & _ & ->).
  rewrite (inv_groups _ _ _ Hinv), (inv_ignored _ _ _ Hinv),
    (bk_excluded _ _ _ Hbk), (bk_concurrency _ _ _ Hbk).
  repeat split; try done.
  all: pose proof (inv_cache _ _ _ Hinv) as Hevolved; simpl in Hevolved.
  all: destruct (cache e) as [c0|], (cache (engine r)) as [c|]; try done; simpl.
  all: destruct Hevolved as (Hen & Hv & _).
  all: destruct (save_fields c saveAt writeOk) as (_ & Hv' & Hen').
  all: rewrite ?Hv', ?Hen'; congruence.
Qed.

(** ** Runs on a warm cache *)

Lemma flat_map_ext_elem {A B : Type} (f g : A → list B) (l : list A) :
  (∀ x, x ∈ l → f x = g x) → flat_map f l = flat_map g l.
Proof.
  induction l as [|x l IH]; intros Hfg; simpl; [done|].
  rewrite (Hfg x) by (by left). rewrite IH; [done|].
  intros y Hy. apply Hfg. by right.
Qed.

Lemma WarmRun_start (e0 : t) (filePaths : list string) :
  WarmRun e0 filePaths (start e0 filePaths).
Proof.
  split; simpl; try done.
  - rewrite tally_start by done. lia.
  - intros i task [-> _]%lookup_replicate. done.
Qed.

Lemma step_WarmRun (e0 : t) (filePaths : list string) (r : Run) (ev : Event) :
  warm e0 filePaths →
  WarmRun e0 filePaths r → WarmRun e0 filePaths (step filePaths r ev).
Proof.
  intros (c0 & Hc0 & Hwarm) [Hcache Hcached Htasks]. destruct ev as [i now]. unfold step.
  destruct (filePaths !! i) as [filePath|] eqn:Hpath; [|done].
  destruct (tasks r !! i) as [[|contentHash findings|findings]|] eqn:Htask; try done.
  - assert (Hin : filePath ∈ filePaths) by (by eapply list_elem_of_lookup_2).
    assert (Hlt : (i < length (tasks r))%nat) by (by eapply lookup_lt_Some).
    assert (Hsettle : ∀ findings e',
               cache e' = cache (engine r) →
               (cachedFiles e' + readOnes filePath Queued
                = cachedFiles (engine r) + readOnes filePath (Settled findings))%nat →
               WarmRun e0 filePaths (settle (length filePaths) i findings e' r)).
    { intros findings e' Hc' Hn.
      pose proof (tally_insert readOnes filePaths (tasks r) i filePath Queued
                    (Settled findings) Hpath Htask) as Hr.
      split; simpl.
      - congruence.
      - lia.
      - intros j task Hj. destruct (decide (i = j)) as [<-|Hne].
        + rewrite list_lookup_insert_eq in Hj by done. by injection Hj as <-.
        + rewrite list_lookup_insert_ne in Hj by done. by eapply Htasks. }
    destruct (scanFile_begin_cases (engine r) filePath)
      as [Hread|content Hread Hnone|content c entry Hread Hsome Hvalid Hentry
          |content c Hread Hsome Hvalid].
    + apply Hsettle; simpl; [done|]. unfold unreadable. rewrite Hread. lia.
    + congruence.
    + apply Hsettle; simpl; [done|]. unfold unreadable. rewrite Hread. lia.
    + assert (c = c0) as -> by congruence.
      rewrite (Hwarm _ _ Hin Hread) in Hvalid. done.
  - by destruct (Htasks i _ Htask).
Qed.

Lemma run_WarmRun (e0 : t) (filePaths : list string) (schedule : list Event) :
  warm e0 filePaths →
  ∀ r, WarmRun e0 filePaths r →
       WarmRun e0 filePaths (foldl (step filePaths) r schedule).
Proof.
  intros Hwarm. induction schedule as [|ev rest IH]; intros r Hr; simpl; [done|].
  by apply IH, step_WarmRun.
Qed.

Lemma fileFindings_warm (e e' : t) (filePaths : list string) (filePath : string) :
  warm e filePaths → cache e' = cache e → filePath ∈ filePaths →
  fileFindings e' filePath = fileFindings e filePath.
Proof.
  intros (c & Hc & Hwarm) Hsame Hin.
  destruct (readFileContent filePath) as [content|] eqn:Hread.
  - pose proof (Hwarm _ _ Hin Hread) as Hvalid.
    destruct (isValid_getFindings _ _ _ Hvalid) as (entry & Hentry & _).
    rewrite (fileFindings_hit e _ content c entry) by done.
    by rewrite (fileFindings_hit e' _ content c entry) by congruence.
  - by rewrite !fileFindings_unreadable.
Qed.

Lemma warm_runAll (e : t) (filePaths : list string) (schedule : list Event)
    (saveAt : Z) (writeOk : bool) (o : Outcome) :
  warm e filePaths →
  runAll e filePaths schedule saveAt writeOk = Some o →
  let n := length (List.filter (fun path => negb (unreadable path)) filePaths) in
  ScanResult.cachedFiles (result o)
  = (if (0 <? cachedFiles e + n)%nat then Some (cachedFiles e + n)%nat else None)
  ∧ cache (after o) = (fun c => ScanCache.save c saveAt writeOk) <$> cache e.
Proof.
  intros Hwarm Hrun n.
  destruct (runAll_final _ _ _ _ _ _ Hrun)
    as (r & results & -> & Hall & Hinv & _ & -> & _ & ->).
  pose proof (run_WarmRun e filePaths schedule Hwarm _ (WarmRun_start e filePaths))
    as [Hcache Hcached _].
  apply mapM_Some in Hall.
  rewrite (tally_settled readOnes (fun path => if unreadable path then 0%nat else 1%nat)
             filePaths (fun _ _ => eq_refl) _ _ Hall (inv_length _ _ _ Hinv)) in Hcached.
  rewrite list_sum_indicator in Hcached. fold n in Hcached.
  split; [by rewrite Hcached|].
  destruct (saveCache_fields (engine (foldl (step filePaths) (start e filePaths) schedule))
              saveAt writeOk) as (_ & _ & _ & _ & _ & ->).
  by rewrite Hcache.
Qed.

(** On a warm cache every readable file is a hit: the result counts all of
    them as cached, and the tasks leave the cache object alone, which only
    the final [save] touches. *)
Theorem warm_run_is_all_hits (e : t) (filePaths : list string) (schedule : list Event)
    (saveAt : Z) (writeOk : bool) (o : Outcome) :
  warm e filePaths →
  runRulesOnFiles e filePaths schedule saveAt writeOk = Some o →
  ScanResult.cachedFiles (result o)
  = (let n := length (List.filter (fun path => negb (unreadable path)) filePaths) in
     if (0 <? n)%nat then Some n else None)
  ∧ cache (after o) = (fun c => ScanCache.save c saveAt writeOk) <$> cache e.
Proof.
  intros Hwarm Hrun. unfold runRulesOnFiles in Hrun.
  assert (Hwarm0 : warm (with_cachedFiles (with_skippedFiles e 0) 0) filePaths)
    by exact Hwarm.
  destruct (warm_runAll _ _ _ _ _ _ Hwarm0 Hrun) as [Hcached Hcache].
  split; [exact Hcached|exact Hcache].
Qed.

(** On a warm cache no rule is consulted: two engines that share the cache
    return the same findings, whatever rules each has registered. *)
Theorem warm_run_ignores_rules (e e' : t) (filePaths : list string)
    (schedule schedule' : list Event) (saveAt saveAt' : Z) (writeOk writeOk' : bool)
    (o o' : Outcome) :
  warm e filePaths → cache e' = cache e →
  runRulesOnFiles e filePaths schedule saveAt writeOk = Some o →
  runRulesOnFiles e' filePaths schedule' saveAt' writeOk' = Some o' →
  ScanResult.findings (result o') = ScanResult.findings (result o).
Proof.
  intros Hwarm Hsame Hrun Hrun'.
  destruct (runRulesOnFiles_spec _ _ _ _ _ _ Hrun) as (-> & _).
  destruct (runRulesOnFiles_spec _ _ _ _ _ _ Hrun') as (-> & _).
  apply flat_map_ext_elem. intros filePath Hin. by eapply fileFindings_warm.
Qed.

(** ** A run warms the cache *)

Lemma step_revalidated (e0 : t) (c0 : ScanCache.t) (filePaths : list string)
    (r : Run) (ev : Event) :
  cache e0 = Some c0 → ScanCache.enabled c0 = true →
  Invariant e0 filePaths r →
  revalidated filePaths r → revalidated filePaths (step filePaths r ev).
Proof.
  intros Hc0 Hon Hinv Hre. destruct ev as [i now]. unfold step.
  destruct (filePaths !! i) as [filePath|] eqn:Hpath; [|done].
  destruct (tasks r !! i) as [[|contentHash findings|findings]|] eqn:Htask; try done.
  - assert (Hlt : (i < length (tasks r))%nat) by (by eapply lookup_lt_Some).
    destruct (scanFile_begin_cases (engine r) filePath)
      as [Hread|content Hread Hnone|content c entry Hread Hsome Hvalid Hentry
          |content c Hread Hsome Hvalid]; unfold settle;
      intros j path fj contentj cj Hpj Htj Hrj Hcj; simpl in *.
    all: destruct (decide (i = j)) as [<-|Hne];
      [rewrite list_lookup_insert_eq in Htj by done
      |rewrite list_lookup_insert_ne in Htj by done; by eapply Hre].
    + congruence.
    + congruence.
    + congruence.
    + done.
  - destruct (inv_tasks _ _ _ Hinv i filePath _ Hpath Htask)
      as (c0' & content & Hc0' & Hread & -> & -> & _).
    pose proof (inv_cache _ _ _ Hinv) as Hevolved. rewrite Hc0 in Hevolved.
    unfold scanFile_end, scanFile_catch.
    destruct (cache (engine r)) as [c|] eqn:Hsome; [|done].
    destruct Hevolved as (Hen & _).
    unfold settle. intros j path fj contentj cj Hpj Htj Hrj Hcj. simpl in *.
    injection Hcj as <-.
    destruct (decide (filePath = path)) as [<-|Hother].
    + assert (contentj = content) as -> by congruence.
      rewrite ScanCacheFacts.isValid_after_set by congruence.
      apply String.eqb_refl.
    + rewrite ScanCacheFacts.isValid_set_other by done.
      destruct (decide (i = j)) as [<-|Hne]; [congruence|].
      rewrite list_lookup_insert_ne in Htj by done. by eapply Hre.
Qed.

Lemma run_revalidated (e0 : t) (c0 : ScanCache.t) (filePaths : list string)
    (schedule : list Event) :
  cache e0 = Some c0 → ScanCache.enabled c0 = true →
  ∀ r, Invariant e0 filePaths r → revalidated filePaths r →
       revalidated filePaths (foldl (step filePaths) r schedule).
Proof.
  intros Hc0 Hon. induction schedule as [|ev rest IH]; intros r Hinv Hre; simpl; [done|].
  apply IH; [by apply step_Invariant|by eapply step_revalidated].
Qed.

Lemma cacheEvolved_save (e0 : t) (c0 c : ScanCache.t) (now : Z) (writeOk : bool) :
  cacheEvolved e0 (Some c0) (Some c) →
  cacheEvolved e0 (Some c0) (Some (ScanCache.save c now writeOk)).
Proof.
  intros (Hen & Hv & Hentries). simpl.
  destruct (save_fields c now writeOk) as (-> & -> & ->). done.
Qed.

(** After a finished run on an enabled cache, the engine is warm for the
    files of the run, and its cache is still related to the initial one. *)
Lemma runAll_warms (e : t) (c0 : ScanCache.t) (filePaths : list string)
    (schedule : list Event) (saveAt : Z) (writeOk : bool) (o : Outcome) :
  cache e = Some c0 → ScanCache.enabled c0 = true →
  runAll e filePaths schedule saveAt writeOk = Some o →
  warm (after o) filePaths
  ∧ ∃ c, cache (after o) = Some c ∧ cacheEvolved e (Some c0) (Some c).
Proof.
  intros Hc0 Hon Hrun.
  destruct (runAll_final _ _ _ _ _ _ Hrun)
    as (r & results & Hr & Hall & Hinv & _ & -> & _).
  pose proof (inv_cache _ _ _ Hinv) as Hevolved. rewrite Hc0 in Hevolved.
  destruct (cache (engine r)) as [c|] eqn:Hc; [|done].
  destruct (saveCache_fields (engine r) saveAt writeOk) as (_ & _ & _ & _ & _ & Hsaved).
  rewrite Hc in Hsaved. simpl in Hsaved.
  assert (Hre : revalidated filePaths r).
  { rewrite Hr.
    apply (run_revalidated e c0 filePaths schedule Hc0 Hon); [apply Invariant_start|].
    intros i path f content c' _ [Hq _]%lookup_replicate. done. }
  split.
  - exists (ScanCache.save c saveAt writeOk). split; [done|].
    intros filePath content [i Hi]%list_elem_of_lookup_1 Hread.
    rewrite ScanCacheFacts.isValid_save.
    apply mapM_Some in Hall.
    destruct (lookup_lt_is_Some_2 (tasks r) i) as [task Htask].
    { rewrite (inv_length _ _ _ Hinv). by eapply lookup_lt_Some. }
    destruct (Forall2_lookup_l _ _ _ _ _ Hall Htask) as (findings & _ & Hsettled).
    destruct task; try done. by eapply Hre.
  - exists (ScanCache.save c saveAt writeOk). split; [done|]. by apply cacheEvolved_save.
Qed.

(** Scanning the same files a second time, with nothing changed on disk:
    given an enabled cache, the second run returns the findings of the
    first, counts every readable file as cached and skips the same files,
    whatever the two schedules. *)
Theorem second_run_hits_cache (e : t) (c0 : ScanCache.t) (filePaths : list string)
    (schedule schedule' : list Event) (saveAt saveAt' : Z) (writeOk writeOk' : bool)
    (o o' : Outcome) :
  cache e = Some c0 → ScanCache.enabled c0 = true →
  runRulesOnFiles e filePaths schedule saveAt writeOk = Some o →
  runRulesOnFiles (after o) filePaths schedule' saveAt' writeOk' = Some o' →
  ScanResult.findings (result o') = ScanResult.findings (result o)
  ∧ ScanResult.cachedFiles (result o')
    = (let n := length (List.filter (fun path => negb (unreadable path)) filePaths) in
       if (0 <? n)%nat then Some n else None)
  ∧ ScanResult.skippedFiles (result o') = ScanResult.skippedFiles (result o).
Proof.
  intros Hc0 Hon Hrun Hrun'.
  destruct (runRulesOnFiles_spec _ _ _ _ _ _ Hrun) as (Hf & _ & Hs).
  destruct (runRulesOnFiles_spec _ _ _ _ _ _ Hrun') as (Hf' & _ & Hs').
  unfold runRulesOnFiles in Hrun.
  destruct (runAll_warms (with_cachedFiles (with_skippedFiles e 0) 0) c0
              _ _ _ _ _ Hc0 Hon Hrun) as (Hwarm & c & Hc & Hevolved).
  split; [|split].
  - rewrite Hf, Hf'. apply flat_map_ext_elem. intros filePath Hin.
    rewrite <- (fileFindings_counters e filePath 0 0).
    destruct (readFileContent filePath) as [content|] eqn:Hread.
    + destruct Hwarm as (c' & Hc' & Hvalid).
      assert (c' = c) as -> by congruence.
      pose proof (Hvalid _ _ Hin Hread) as Hhit.
      destruct (isValid_getFindings _ _ _ Hhit) as (entry & Hentry & _).
      rewrite (fileFindings_hit (after o) _ content c entry) by done.
      by eapply cacheEvolved_hit.
    + by rewrite !fileFindings_unreadable.
  - unfold runRulesOnFiles in Hrun'.
    assert (Hwarm0 : warm (with_cachedFiles (with_skippedFiles (after o) 0) 0) filePaths)
      by exact Hwarm.
    by destruct (warm_runAll _ _ _ _ _ _ Hwarm0 Hrun') as [Hcached _].
  - by rewrite Hs, Hs'.
Qed.

(** ** Which rules run *)

Lemma endsWith_refl (s : string) : endsWith s s = true.
Proof.
  destruct s as [|a s]; [reflexivity|].
  change (String.eqb (String a s) (String a s) || endsWith s (String a s) = true).
  by rewrite String.eqb_refl.
Qed.

(** [endsWith] is what its name says. *)
Lemma endsWith_spec (s suffix : string) :
  endsWith s suffix = true ↔ ∃ front, s = String.append front suffix.
Proof.
  split.
  - induction s as [|a rest IH]; intros Hends.
    + destruct suffix; [by exists EmptyString|discriminate].
    + change (String.eqb (String a rest) suffix || endsWith rest suffix = true) in Hends.
      apply orb_true_iff in Hends as [Heq%String.eqb_eq|Hrest].
      * by exists EmptyString.
      * destruct (IH Hrest) as [front ->]. by exists (String a front).
  - intros [front ->]. induction front as [|a front IH]; simpl.
    + apply endsWith_refl.
    + rewrite IH. apply orb_true_r.
Qed.

Lemma elem_of_filter {A : Type} (f : A → bool) (l : list A) (x : A) :
  x ∈ List.filter f l ↔ x ∈ l ∧ f x = true.
Proof. by rewrite !list_elem_of_In, filter_In. Qed.

Lemma elem_of_flat_map {A B : Type} (f : A → list B) (l : list A) (y : B) :
  y ∈ flat_map f l ↔ ∃ x, x ∈ l ∧ y ∈ f x.
Proof.
  rewrite list_elem_of_In, in_flat_map. split; intros (x & Hx & Hy); exists x.
  - by rewrite !list_elem_of_In.
  - by rewrite <- !list_elem_of_In.
Qed.

Lemma filter_sublist {A : Type} (f : A → bool) (l : list A) :
  sublist (List.filter f l) l.
Proof.
  induction l as [|x l IH]; simpl; [constructor|].
  destruct (f x); by constructor.
Qed.

(** The rules the engine works with are those of the registered groups, in
    the order of registration, without the ignored ids: registering a group
    appends its rules behind the ones already there, and [setIgnoredRules]
    replaces the ignore set. *)
Theorem rules_in_registration_order (e : t) (group : RuleGroup.t) (ignored : list string) :
  getAllRules (registerRuleGroup e group)
  = getAllRules e
    ++ List.filter (fun rule => negb (bool_decide (Rule.id rule ∈ ignoredRules e)))
                   (RuleGroup.rules group)
  ∧ (∀ rule, rule ∈ getAllRules e ↔
             (∃ g, g ∈ ruleGroups e ∧ rule ∈ RuleGroup.rules g)
             ∧ Rule.id rule ∉ ignoredRules e)
  ∧ (∀ rule, rule ∈ getAllRules (setIgnoredRules e ignored) ↔
             (∃ g, g ∈ ruleGroups e ∧ rule ∈ RuleGroup.rules g)
             ∧ Rule.id rule ∉ ignored).
Proof.
  assert (Hmem : ∀ e' rule, rule ∈ getAllRules e' ↔
            (∃ g, g ∈ ruleGroups e' ∧ rule ∈ RuleGroup.rules g)
            ∧ Rule.id rule ∉ ignoredRules e').
  { intros e' rule. unfold getAllRules.
    rewrite elem_of_filter, elem_of_flat_map, negb_true_iff, bool_decide_eq_false. done. }
  split; [|split].
  - unfold getAllRules, registerRuleGroup. simpl.
    rewrite flat_map_app, List.filter_app. simpl. by rewrite app_nil_r.
  - apply Hmem.
  - intros rule. rewrite Hmem. simpl. by rewrite elem_of_list_to_set.
Qed.

(** A rule applies to a file exactly when it is one of the engine's rules
    and one of its file types is a suffix of the path; the applicable rules
    keep the order of the engine's rules. A rule without file types applies
    to no file, a rule with the empty string among them to every file. *)
Theorem applicable_rules_by_suffix (e : t) (filePath : string) :
  sublist (getApplicableRules e filePath) (getAllRules e)
  ∧ (∀ rule, rule ∈ getApplicableRules e filePath ↔
             rule ∈ getAllRules e
             ∧ ∃ type front, type ∈ Rule.fileTypes rule
                             ∧ filePath = String.append front type)
  ∧ (∀ rule, Rule.fileTypes rule = [] → rule ∉ getApplicableRules e filePath)
  ∧ (∀ rule, rule ∈ getAllRules e → EmptyString ∈ Rule.fileTypes rule →
             rule ∈ getApplicableRules e filePath).
Proof.
  assert (Hmem : ∀ rule, rule ∈ getApplicableRules e filePath ↔
            rule ∈ getAllRules e
            ∧ ∃ type front, type ∈ Rule.fileTypes rule
                            ∧ filePath = String.append front type).
  { intros rule. unfold getApplicableRules. rewrite elem_of_filter, existsb_exists.
    split; intros [Hrule Htype]; (split; [done|]).
    - destruct Htype as (type & Hin & [front ->]%endsWith_spec).
      exists type, front. by rewrite list_elem_of_In.
    - destruct Htype as (type & front & Hin & ->). exists type.
      split; [by apply list_elem_of_In|]. apply endsWith_spec. by exists front. }
  split; [apply filter_sublist|]. split; [exact Hmem|]. split.
  - intros rule Hnone [_ (type & front & Hin & _)]%Hmem.
    rewrite Hnone in Hin. by apply not_elem_of_nil in Hin.
  - intros rule Hrule Hempty. apply Hmem. split; [done|].
    exists EmptyString, filePath. split; [done|].
    clear. induction filePath as [|a rest IH]; [done|].
    change (String a rest = String a (String.append rest EmptyString)). by f_equal.
Qed.

(** Every finding of a file was returned by an applicable rule whose call
    succeeded, and is not in debug context; and every such finding is
    reported. *)
Theorem findings_come_from_applicable_rules (e : t) (filePath fileContent : string)
    (finding : Finding.t) :
  finding ∈ scanFileContent e filePath fileContent ↔
  (∃ rule ruleFindings,
      rule ∈ getApplicableRules e filePath
      ∧ Rule.apply rule (prepareContext filePath fileContent) = Some ruleFindings
      ∧ finding ∈ ruleFindings)
  ∧ isInDebugContext fileContent (Finding.snippet finding) (Finding.filePath finding)
    = false.
Proof.
  rewrite scanFileContent_spec. unfold enrichFindingsWithDebugContext.
  rewrite elem_of_filter, elem_of_flat_map, negb_true_iff.
  split; intros [(rule & Hrule & Hfinding) Hdebug]; (split; [|done]).
  - unfold contribution in Hfinding.
    destruct (Rule.apply rule _) as [ruleFindings|] eqn:Happly; simpl in Hfinding.
    + by exists rule, ruleFindings.
    + by apply not_elem_of_nil in Hfinding.
  - destruct Hfinding as (Hin & Happly & Hfinding).
    exists rule. split; [done|]. unfold contribution. by rewrite Happly.
Qed.

(** ** Other entry points *)

(** *** Runs on a cache without entries *)

Lemma FreshRun_start (e0 : t) (filePaths : list string) :
  (∀ c, cache e0 = Some c → CacheData.files (ScanCache.cache c) = ∅) →
  FreshRun e0 filePaths (start e0 filePaths).
Proof.
  intros Hempty. split; simpl; [done|].
  intros c filePath Hc [entry Hentry]. rewrite (Hempty c Hc), lookup_empty in Hentry.
  discriminate Hentry.
Qed.

(** With every path listed once, no task finds an entry for its file. *)
Lemma step_FreshRun (e0 : t) (filePaths : list string) (r : Run) (ev : Event) :
  NoDup filePaths →
  FreshRun e0 filePaths r → FreshRun e0 filePaths (step filePaths r ev).
Proof.
  intros Hnd [Hcached Hentries]. destruct ev as [i now]. unfold step.
  destruct (filePaths !! i) as [filePath|] eqn:Hpath; [|done].
  destruct (tasks r !! i) as [task|] eqn:Htask; [|done].
  assert (Hlt : (i < length (tasks r))%nat) by (by eapply lookup_lt_Some).
  assert (Hkeep : ∀ task' c q,
             settled task = None →
             cache (engine r) = Some c →
             is_Some (CacheData.files (ScanCache.cache c) !! q) →
             ∃ j findings, filePaths !! j = Some q
                           ∧ <[i := task']> (tasks r) !! j = Some (Settled findings)).
  { intros task' c q Hnot Hc Hq. destruct (Hentries c q Hc Hq) as (j & f & Hj & Htj).
    exists j, f. split; [done|]. rewrite list_lookup_insert_ne; [done|].
    intros ->. rewrite Htask in Htj. injection Htj as ->. discriminate Hnot. }
  destruct task as [|contentHash findings|findings]; [| |done].
  - destruct (scanFile_begin_cases (engine r) filePath)
      as [Hread|content Hread Hnone|content c entry Hread Hsome Hvalid Hentry
          |content c Hread Hsome Hvalid]; unfold settle.
    + split; simpl; [done|]. intros c q. by apply Hkeep.
    + split; simpl; [done|]. intros c q Hc. congruence.
    + destruct (Hentries c filePath Hsome) as (j & f & Hj & Htj); [by eexists|].
      assert (j = i) as -> by (by eapply NoDup_lookup). congruence.
    + split; simpl; [done|]. intros c' q. by apply Hkeep.
  - unfold scanFile_end, scanFile_catch, settle.
    destruct (cache (engine r)) as [c|] eqn:Hsome.
    + split; simpl; [done|]. intros c' q [= <-] Hq.
      destruct (decide (filePath = q)) as [<-|Hne].
      * exists i, findings. split; [done|]. by rewrite list_lookup_insert_eq.
      * rewrite ScanCacheFacts.set_other_entry in Hq by done. by eapply Hkeep.
    + split; simpl; [done|]. intros c' q Hc'. congruence.
Qed.

Lemma run_FreshRun (e0 : t) (filePaths : list string) (schedule : list Event) :
  NoDup filePaths →
  ∀ r, FreshRun e0 filePaths r →
       FreshRun e0 filePaths (foldl (step filePaths) r schedule).
Proof.
  intros Hnd. induction schedule as [|ev rest IH]; intros r Hr; simpl; [done|].
  by apply IH, step_FreshRun.
Qed.

(** After [clearCache] the next run takes nothing from the cache held
    before: its findings are those of a run without cache. When no path is
    listed twice, no file is a cache hit and the result reports no cached
    file; a path listed twice can hit the entry its other occurrence has
    just stored. *)
Theorem clearCache_forces_rescan (e : t) (now now' savedAt : Z) (ok : bool)
    (filePaths : list string) (schedule schedule' : list Event)
    (saveAt saveAt' : Z) (writeOk writeOk' : bool) (o o' : Outcome) :
  runRulesOnFiles (clearCache e now now' savedAt ok) filePaths schedule saveAt writeOk
  = Some o →
  runRulesOnFiles (disableCache e) filePaths schedule' saveAt' writeOk' = Some o' →
  ScanResult.findings (result o) = ScanResult.findings (result o')
  ∧ (NoDup filePaths → ScanResult.cachedFiles (result o) = None).
Proof.
  intros Hrun Hrun'. split.
  - destruct (runRulesOnFiles_spec _ _ _ _ _ _ Hrun) as (-> & _).
    destruct (runRulesOnFiles_spec _ _ _ _ _ _ Hrun') as (-> & _).
    apply flat_map_ext. intros filePath.
    destruct (readFileContent filePath) as [content|] eqn:Hread;
      [|by rewrite !fileFindings_unreadable].
    rewrite (fileFindings_no_cache (disableCache e) _ content) by done.
    unfold clearCache. destruct (cache e) as [c|] eqn:Hc.
    + erewrite fileFindings_miss; [|done|done|].
      * by apply scanFileContent_same_rules.
      * rewrite ScanCacheFacts.isValid_save. unfold ScanCache.isValid, ScanCache.clear.
        simpl. rewrite lookup_empty. by destruct (ScanCache.enabled c).
    + rewrite (fileFindings_no_cache e _ content) by done.
      by apply scanFileContent_same_rules.
  - intros Hnd. unfold runRulesOnFiles in Hrun.
    set (e0 := with_cachedFiles
                 (with_skippedFiles (clearCache e now now' savedAt ok) 0) 0) in *.
    destruct (runAll_final _ _ _ _ _ _ Hrun)
      as (r & results & -> & _ & _ & _ & _ & _ & ->).
    assert (Hfresh : FreshRun e0 filePaths (start e0 filePaths)).
    { apply FreshRun_start. intros c. unfold e0, clearCache. simpl.
      destruct (cache e) as [c1|] eqn:Hc; simpl; [|congruence]. intros [= <-].
      by destruct (save_fields (ScanCache.clear c1 now now') savedAt ok) as (-> & _). }
    by rewrite (fr_cached _ _ _ (run_FreshRun e0 filePaths schedule Hnd _ Hfresh)).
Qed.

(** [runRulesOnProject] scans the four buckets of the walker one after the
    other: code files, then JSON, XML and plist files. Its findings are the
    per-file findings in that order, every file is counted as scanned, and
    the progress calls count up to the total, whatever the schedule. *)
Theorem project_run_covers_buckets (e : t) (rootDir : string) (schedule : list Event)
    (saveAt : Z) (writeOk : bool) (o : Outcome) :
  runRulesOnProject e rootDir schedule saveAt writeOk = Some o →
  let fileGroup := walkProjectFiles rootDir (excludedPaths e) in
  let perBucket := fun bucket => concat (map (fileFindings e) bucket) in
  let total := (length (FileGroup.jsFiles fileGroup) + length (FileGroup.jsonFiles fileGroup)
                + length (FileGroup.xmlFiles fileGroup)
                + length (FileGroup.plistFiles fileGroup))%nat in
  ScanResult.findings (result o)
  = perBucket (FileGroup.jsFiles fileGroup) ++ perBucket (FileGroup.jsonFiles fileGroup)
    ++ perBucket (FileGroup.xmlFiles fileGroup) ++ perBucket (FileGroup.plistFiles fileGroup)
  ∧ ScanResult.scannedFiles (result o) = total
  ∧ calls o = map (fun current => (current, total)) (seq 1 total).
Proof.
  intros Hrun fileGroup perBucket total. unfold runRulesOnProject in Hrun.
  fold fileGroup in Hrun.
  set (allFiles := FileGroup.jsFiles fileGroup ++ FileGroup.jsonFiles fileGroup
                   ++ FileGroup.xmlFiles fileGroup ++ FileGroup.plistFiles fileGroup) in *.
  assert (Htotal : length allFiles = total).
  { unfold allFiles, total. rewrite !length_app. lia. }
  destruct (runAll_spec _ _ _ _ _ _ Hrun) as (Hf & Hn & _).
  destruct (runAll_final _ _ _ _ _ _ Hrun)
    as (r & results & _ & Hall & Hinv & Hbk & _ & Hcalls & _).
  split; [|split].
  - rewrite Hf.
    rewrite (flat_map_ext _ (fileFindings e) (fun p => fileFindings_counters e p 0 0)).
    unfold allFiles, perBucket. by rewrite !flat_map_app, <- !flat_map_concat_map.
  - by rewrite Hn.
  - rewrite Hcalls, (bk_progress _ _ _ Hbk), (bk_completed _ _ _ Hbk).
    apply mapM_Some in Hall.
    rewrite (tally_settled settledOnes (fun _ => 1%nat) allFiles
               (fun _ _ => eq_refl) _ _ Hall (inv_length _ _ _ Hinv)).
    by rewrite list_sum_ones, Htotal.
Qed.

(** ** One task after the other *)

(** Resuming a queued task twice in a row runs [scanFile] on its file
    without interruption. *)
Lemma step_twice (filePaths : list string) (r : Run) (i : nat) (now : Z) filePath :
  filePaths !! i = Some filePath → tasks r !! i = Some Queued →
  foldl (step filePaths) r [(i, now); (i, now)]
  = settle (length filePaths) i (scanFile (engine r) filePath now).1
           (scanFile (engine r) filePath now).2 r.
Proof.
  intros Hpath Htask.
  assert (Hlt : (i < length (tasks r))%nat) by (by eapply lookup_lt_Some).
  cbn [foldl]. unfold step at 2. rewrite Hpath, Htask. unfold scanFile.
  destruct (scanFile_begin (engine r) filePath) as [[findings|contentHash findings] e'].
  - unfold step, settle. cbn [tasks]. rewrite Hpath, list_lookup_insert_eq by done. done.
  - unfold step. cbn [tasks engine]. rewrite Hpath, list_lookup_insert_eq by done.
    destruct (scanFile_end e' filePath contentHash findings now) as [findings' e''].
    unfold settle. cbn. by rewrite list_insert_insert_eq.
Qed.

Lemma inOrder_from (filePaths : list string) (now : Z) :
  ∀ (todo finished : list string) (r : Run),
    filePaths = finished ++ todo →
    (∀ j, (length finished ≤ j < length filePaths)%nat → tasks r !! j = Some Queued) →
    let r' := foldl (step filePaths) r
                (flat_map (fun i => [(i, now); (i, now)])
                          (seq (length finished) (length todo))) in
    engine r' = (scanEach (engine r) todo now).2
    ∧ length (tasks r') = length (tasks r)
    ∧ (∀ j, (j < length finished)%nat → tasks r' !! j = tasks r !! j)
    ∧ length (scanEach (engine r) todo now).1 = length todo
    ∧ (∀ j findings, (scanEach (engine r) todo now).1 !! j = Some findings →
                     tasks r' !! (length finished + j)%nat = Some (Settled findings)).
Proof.
  induction todo as [|filePath rest IH]; intros finished r Hsplit Hqueued.
  - simpl. repeat split; try done.
  - assert (Hpath : filePaths !! length finished = Some filePath).
    { rewrite Hsplit. by rewrite list_lookup_middle. }
    assert (Htask : tasks r !! length finished = Some Queued).
    { apply Hqueued. rewrite Hsplit, length_app. simpl. lia. }
    assert (Hlt : (length finished < length (tasks r))%nat) by (by eapply lookup_lt_Some).
    cbn [length seq flat_map]. rewrite foldl_app.
    rewrite (step_twice filePaths r (length finished) now filePath Hpath Htask).
    cbn [scanEach].
    destruct (scanFile (engine r) filePath now) as [findings e1] eqn:Hscan. cbn [fst snd].
    set (r1 := settle (length filePaths) (length finished) findings e1 r).
    specialize (IH (finished ++ [filePath]) r1).
    rewrite length_app in IH. cbn [length] in IH.
    replace (length finished + 1)%nat with (S (length finished)) in IH by lia.
    destruct IH as (Hengine & Hlen & Hbefore & Hresults & Hsettled).
    { by rewrite <- app_assoc. }
    { intros j Hj. unfold r1, settle. cbn [tasks].
      rewrite list_lookup_insert_ne by lia. apply Hqueued. lia. }
    change (engine r1) with e1 in *.
    destruct (scanEach e1 rest now) as [others e2] eqn:Heach. cbn [fst snd] in *.
    split; [done|]. split; [|split; [|split]].
    + rewrite Hlen. unfold r1, settle. cbn [tasks]. by rewrite length_insert.
    + intros j Hj. rewrite Hbefore by lia. unfold r1, settle. cbn [tasks].
      by rewrite list_lookup_insert_ne by lia.
    + cbn [length]. by rewrite Hresults.
    + intros [|j] f Hf.
      * injection Hf as <-. rewrite Nat.add_0_r, Hbefore by lia.
        unfold r1, settle. cbn [tasks]. by rewrite list_lookup_insert_eq.
      * replace (length finished + S j)%nat with (S (length finished) + j)%nat by lia.
        by apply Hsettled.
Qed.

(** The schedule that resumes the tasks one after the other gives what
    calling [scanFile] on each path in turn gives: the same findings and,
    up to the final [save], the same engine, counters and cache included. *)
Theorem in_order_run_is_sequential (e : t) (filePaths : list string)
    (now saveAt : Z) (writeOk : bool) :
  let e0 := with_cachedFiles (with_skippedFiles e 0) 0 in
  ∃ o, runRulesOnFiles e filePaths (inOrder (length filePaths) now) saveAt writeOk = Some o
       ∧ ScanResult.findings (result o) = concat (scanEach e0 filePaths now).1
       ∧ after o = saveCache (scanEach e0 filePaths now).2 saveAt writeOk.
Proof.
  intros e0. unfold runRulesOnFiles, runAll, inOrder. fold e0.
  destruct (inOrder_from filePaths now filePaths [] (start e0 filePaths) eq_refl)
    as (Hengine & Hlen & _ & Hresults & Hsettled).
  { intros j Hj. simpl. apply lookup_replicate_2. lia. }
  cbn [length] in *. simpl in Hlen. rewrite length_replicate in Hlen.
  set (r := foldl (step filePaths) (start e0 filePaths) _) in *.
  change (engine (start e0 filePaths)) with e0 in *.
  assert (Hall : mapM settled (tasks r) = Some (scanEach e0 filePaths now).1).
  { apply mapM_Some, Forall2_same_length_lookup. split; [lia|].
    intros j task findings Htask Hfindings.
    specialize (Hsettled j findings Hfindings). simpl in Hsettled.
    rewrite Htask in Hsettled. by injection Hsettled as ->. }
  rewrite Hall. eexists. split; [done|]. simpl. by rewrite Hengine.
Qed.

(** ** Across restarts *)


(** A cache file none of whose entries carries the running version is
    worth nothing: the run returns the findings of a run without cache. *)
Theorem other_version_forces_rescan (e : t) (data : CacheData.t)
    (projectDir version : string) (t0 t0' t1 t1' : Z)
    (filePaths : list string) (schedule schedule' : list Event)
    (saveAt saveAt' : Z) (writeOk writeOk' : bool) (o o' : Outcome) :
  (∀ filePath entry, CacheData.files data !! filePath = Some entry →
                     CacheEntry.version entry ≠ version) →
  runRulesOnFiles (enableCache e projectDir version (ScanCache.Stored data) t0 t0' t1 t1')
    filePaths schedule saveAt writeOk = Some o →
  runRulesOnFiles (disableCache e) filePaths schedule' saveAt' writeOk' = Some o' →
  ScanResult.findings (result o) = ScanResult.findings (result o').
Proof.
  intros Hother Hrun Hrun'.
  destruct (runRulesOnFiles_spec _ _ _ _ _ _ Hrun) as (-> & _).
  destruct (runRulesOnFiles_spec _ _ _ _ _ _ Hrun') as (-> & _).
  apply flat_map_ext. intros filePath.
  destruct (readFileContent filePath) as [content|] eqn:Hread;
    [|by rewrite !fileFindings_unreadable].
  rewrite (fileFindings_no_cache (disableCache e) _ content) by done.
  erewrite fileFindings_miss; [|done|done|].
  - by apply scanFileContent_same_rules.
  - unfold ScanCache.isValid. simpl.
    destruct (CacheData.files data !! filePath) as [entry|] eqn:Hentry; [|done].
    destruct (String.eqb_spec (CacheEntry.hash entry) (sha256hex content)); [|done].
    simpl. destruct (String.eqb_spec (CacheEntry.version entry) version); [|done].
    by destruct (Hother _ _ Hentry).
Qed.

(** ** Failing rules *)

(** On a cold cache, or without one, every file is scanned by the rules. *)
Lemma fileFindings_cold (e : t) (filePaths : list string) (filePath : string) :
  cold e filePaths → filePath ∈ filePaths →
  fileFindings e filePath = rescanned e filePath.
Proof.
  intros Hcold Hin. unfold rescanned.
  destruct (readFileContent filePath) as [content|] eqn:Hread;
    [|by apply fileFindings_unreadable].
  rewrite <- scanFileContent_spec.
  destruct (cache e) as [c|] eqn:Hc.
  - eapply fileFindings_miss; eauto.
  - by apply fileFindings_no_cache.
Qed.

(** C4. Take a run over a list of files none of which has a valid cache
    entry, and in it a readable file on which one applicable rule throws.
    Every fair schedule lets the run return, and its findings are, in this
    order: what all applicable rules report on the files listed earlier;
    for the file itself what the applicable rules before the failing one
    report followed by what those after it report, filtered for debug
    context as always; and what all applicable rules report on the files
    listed later. The failing rule adds nothing and stops nothing. *)
Theorem failing_rule_is_isolated (e : t) (earlier later : list string)
    (filePath fileContent : string) (before after : list Rule.t) (rule : Rule.t)
    (schedule : list Event) (saveAt : Z) (writeOk : bool) :
  readFileContent filePath = Some fileContent →
  getApplicableRules e filePath = before ++ rule :: after →
  Rule.apply rule (prepareContext filePath fileContent) = None →
  cold e (earlier ++ filePath :: later) →
  fair (length (earlier ++ filePath :: later)) schedule →
  let context := prepareContext filePath fileContent in
  let ofTheFile :=
    enrichFindingsWithDebugContext
      (flat_map (contribution context) before ++ flat_map (contribution context) after)
      fileContent in
  scanFileContent e filePath fileContent = ofTheFile
  ∧ ∃ o, runRulesOnFiles e (earlier ++ filePath :: later) schedule saveAt writeOk = Some o
         ∧ ScanResult.findings (result o)
           = concat (map (rescanned e) earlier) ++ ofTheFile
             ++ concat (map (rescanned e) later).
Proof.
  intros Hread Hrules Hthrows Hcold Hfair context ofTheFile.
  assert (Hfile : scanFileContent e filePath fileContent = ofTheFile).
  { rewrite scanFileContent_spec, Hrules, flat_map_app. simpl.
    fold context. unfold contribution at 2. fold context in Hthrows.
    by rewrite Hthrows. }
  split; [exact Hfile|].
  destruct (runAll_returns (with_cachedFiles (with_skippedFiles e 0) 0)
              (earlier ++ filePath :: later) schedule saveAt writeOk Hfair) as [o Ho].
  exists o. split; [done|].
  destruct (runRulesOnFiles_spec _ _ _ _ _ _ Ho) as (-> & _).
  rewrite (flat_map_ext_elem (fileFindings e) (rescanned e))
    by (intros path Hin; by eapply fileFindings_cold).
  rewrite flat_map_app. simpl. rewrite <- !flat_map_concat_map. f_equal. f_equal.
  unfold rescanned. by rewrite Hread, <- scanFileContent_spec.
Qed.

End WithCollaborators.
End RuleEngineFacts.

(** * The theorems at work on the sample project *)

Module Examples.
Import Fixture.

Lemma interleaved_fair : RuleEngine.fair (length paths) interleaved.
Proof.
  intros i Hi. simpl in Hi.
  destruct i as [|[|[|[|i]]]]; [vm_compute; lia ..|lia].
Defined.

(** C8 as stated fails: a source file that does not parse, and a file of
    another kind, get a context with none of the four payloads. *)
Lemma context_without_payload :
  RuleContext.populated
    (RuleEngine.prepareContext (H := sample) "/app/src/broken.js" "const = ;") = 0%nat
  ∧ RuleContext.populated
      (RuleEngine.prepareContext (H := sample) "/app/README.md" "# rnsec") = 0%nat.
Proof. split; reflexivity. Qed.

Lemma set_then_valid_holds :
  let c := ScanCache.new "/proj" "1.0.0" DEFAULT_CACHE_FILE 1000 1000 in
  let c' := ScanCache.set c "/a" "ha" [finding "R1" "/a"] 2000 in
  ScanCache.enabled c = true
  ∧ ScanCache.isValid c' "/a" "ha" = true
  ∧ ScanCache.getFindings c' "/a" = Some [finding "R1" "/a"].
Proof.
  intros c c'. split; [reflexivity|].
  destruct (ScanCacheFacts.set_then_valid c "/a" "ha" [finding "R1" "/a"] 2000 eq_refl)
    as (Hvalid & _ & Hfound & _).
  split; assumption.
Defined.

Lemma stale_findings_handed_out :
  let entry := CacheEntry.mk "ha" [finding "R1" "/a"] 2000 "1.0.0" in
  ScanCache.enabled twoEntries = true
  ∧ CacheData.files (ScanCache.cache twoEntries) !! "/a" = Some entry
  ∧ ScanCache.getFindings twoEntries "/a" = Some [finding "R1" "/a"]
  ∧ ScanCache.isValid twoEntries "/a" "another hash" = false.
Proof.
  intros entry.
  assert (Hentry : CacheData.files (ScanCache.cache twoEntries) !! "/a" = Some entry)
    by (vm_compute; reflexivity).
  destruct (ScanCacheFacts.getFindings_ignores_hash_and_version
              twoEntries "/a" entry eq_refl Hentry) as [Hfound Hvalid].
  split; [reflexivity|]. split; [exact Hentry|]. split; [exact Hfound|].
  destruct (ScanCache.isValid twoEntries "/a" "another hash") eqn:Hv; [|reflexivity].
  apply Hvalid in Hv as [Hhash _]. discriminate Hhash.
Defined.

Lemma interleaved_run_in_input_order :
  ∃ o, RuleEngine.runRulesOnFiles cached paths interleaved 20 true = Some o
       ∧ ScanResult.findings (RuleEngine.result o)
         = concat (map (RuleEngine.fileFindings cached) paths).
Proof.
  eexists. split; [vm_compute; reflexivity|].
  apply (RuleEngineFacts.findings_in_input_order cached paths interleaved 20 true).
  vm_compute. reflexivity.
Defined.

Lemma cached_and_uncached_agree :
  ∃ o o',
    CacheData.files (ScanCache.cache (ScanCache.new "/app" "1.0.0" DEFAULT_CACHE_FILE 1 1)) = ∅
    ∧ RuleEngine.runRulesOnFiles (RuleEngine.disableCache engine) paths
        (RuleEngine.inOrder 4 5) 20 true = Some o
    ∧ RuleEngine.runRulesOnFiles
        (RuleEngine.with_cache engine
           (Some (ScanCache.new "/app" "1.0.0" DEFAULT_CACHE_FILE 1 1)))
        paths interleaved 20 true = Some o'
    ∧ ScanResult.findings (RuleEngine.result o) = ScanResult.findings (RuleEngine.result o').
Proof.
  eexists _, _. split; [reflexivity|].
  split; [vm_compute; reflexivity|]. split; [vm_compute; reflexivity|].
  apply (RuleEngineFacts.cache_does_not_change_findings engine
           (ScanCache.new "/app" "1.0.0" DEFAULT_CACHE_FILE 1 1) paths
           (RuleEngine.inOrder 4 5) interleaved 20 20 true true).
  - reflexivity.
  - vm_compute. reflexivity.
  - vm_compute. reflexivity.
Defined.

Lemma throwing_rule_isolated :
  let files := ["/app/src/util.ts"] ++ "/app/src/App.js" :: ["/nonexistent/file.js"] in
  let context := RuleEngine.prepareContext "/app/src/App.js" "const key = 'ghp_aBcD';" in
  @readFileContent sample "/app/src/App.js" = Some "const key = 'ghp_aBcD';"
  ∧ RuleEngine.getApplicableRules cached "/app/src/App.js"
    = [reporting "R1"] ++ throwing :: [reporting "R2"]
  ∧ Rule.apply throwing context = None
  ∧ RuleEngine.cold cached files
  ∧ RuleEngine.fair (length files) (RuleEngine.inOrder 3 5)
  ∧ RuleEngine.scanFileContent cached "/app/src/App.js" "const key = 'ghp_aBcD';"
    = [finding "R1" "/app/src/App.js"; finding "R2" "/app/src/App.js"]
  ∧ ∃ o, RuleEngine.runRulesOnFiles cached files (RuleEngine.inOrder 3 5) 20 true = Some o
         ∧ ScanResult.findings (RuleEngine.result o)
           = [ finding "R1" "/app/src/util.ts"; finding "R2" "/app/src/util.ts";
               finding "R1" "/app/src/App.js"; finding "R2" "/app/src/App.js" ].
Proof.
  intros files context.
  assert (Hrules : RuleEngine.getApplicableRules cached "/app/src/App.js"
                   = [reporting "R1"] ++ throwing :: [reporting "R2"]) by reflexivity.
  assert (Hcold : RuleEngine.cold cached files).
  { intros c filePath fileContent Hc _ _.
    assert (Hcache : RuleEngine.cache cached
                     = Some (ScanCache.load
                               (ScanCache.new "/app" "1.0.0" DEFAULT_CACHE_FILE 1 1)
                               ScanCache.Unreadable 2 2))
      by reflexivity.
    rewrite Hcache in Hc. injection Hc as <-.
    destruct (ScanCache.isValid _ filePath _) eqn:Hvalid; [|reflexivity].
    apply ScanCacheFacts.isValid_true_iff in Hvalid as (_ & entry & Hentry & _).
    change ((∅ : gmap string CacheEntry.t) !! filePath = Some entry) in Hentry.
    by rewrite lookup_empty in Hentry. }
  assert (Hfair : RuleEngine.fair (length files) (RuleEngine.inOrder 3 5))
    by apply (RuleEngineFacts.inOrder_fair 3 5).
  split; [reflexivity|]. split; [exact Hrules|]. split; [reflexivity|].
  split; [exact Hcold|]. split; [exact Hfair|].
  pose proof (RuleEngineFacts.failing_rule_is_isolated cached
                ["/app/src/util.ts"] ["/nonexistent/file.js"]
                "/app/src/App.js" "const key = 'ghp_aBcD';"
                [reporting "R1"] [reporting "R2"] throwing
                (RuleEngine.inOrder 3 5) 20 true
                eq_refl Hrules eq_refl Hcold Hfair) as Hisolated.
  cbv zeta in Hisolated. destruct Hisolated as (Hfile & o & Hrun & Hfindings).
  split; [rewrite Hfile; reflexivity|].
  exists o. split; [exact Hrun|]. rewrite Hfindings. reflexivity.
Defined.

Lemma unreadable_path_skipped :
  "/nonexistent/file.js" ∈ paths
  ∧ @readFileContent sample "/nonexistent/file.js" = None
  ∧ RuleEngine.fair (length paths) interleaved
  ∧ ∃ o, RuleEngine.runRulesOnFiles cached paths interleaved 20 true = Some o
         ∧ ScanResult.skippedFiles (RuleEngine.result o) = Some 1%nat
         ∧ length (ScanResult.findings (RuleEngine.result o)) = 6%nat.
Proof.
  assert (Hin : "/nonexistent/file.js" ∈ paths) by (repeat constructor).
  split; [exact Hin|]. split; [reflexivity|]. split; [exact interleaved_fair|].
  destruct (RuleEngineFacts.unreadable_file_is_skipped cached paths
              "/nonexistent/file.js" 0 interleaved 20 true Hin eq_refl interleaved_fair)
    as (_ & o & Hrun & Hfindings & _ & Hskipped).
  exists o. split; [exact Hrun|]. split; [exact Hskipped|].
  rewrite Hfindings. reflexivity.
Defined.

(** ** The further properties at work *)

Lemma upsert_on_two_entries :
  ScanCache.enabled twoEntries = true
  ∧ "/a" ≠ "__proto__" ∧ "/c" ≠ "__proto__"
  ∧ ScanCache.isValid (ScanCache.set twoEntries "/a" "new" [] 5000) "/a" "ha" = false
  ∧ ScanCache.getStats (ScanCache.set twoEntries "/a" "new" [] 5000) = 2%nat
  ∧ ScanCache.getStats (ScanCache.set twoEntries "/c" "hc" [] 5000) = 3%nat.
Proof.
  assert (Ha : "/a" ≠ "__proto__") by discriminate.
  assert (Hc : "/c" ≠ "__proto__") by discriminate.
  split; [reflexivity|]. split; [exact Ha|]. split; [exact Hc|].
  destruct (ScanCacheFacts.set_is_local_upsert twoEntries "/a" "new" [] 5000 eq_refl Ha)
    as (Hvalid & _ & Hstats).
  destruct (ScanCacheFacts.set_is_local_upsert twoEntries "/c" "hc" [] 5000 eq_refl Hc)
    as (_ & _ & Hstats').
  split; [rewrite Hvalid; reflexivity|]. split.
  - rewrite Hstats. vm_compute. reflexivity.
  - rewrite Hstats'. vm_compute. reflexivity.
Defined.


Lemma set_then_remove_on_two_entries :
  ScanCache.enabled twoEntries = true
  ∧ CacheData.files (ScanCache.cache twoEntries) !! "/c" = None
  ∧ CacheData.files
      (ScanCache.cache (ScanCache.remove (ScanCache.set twoEntries "/c" "hc" [] 5000) "/c"))
    = CacheData.files (ScanCache.cache twoEntries).
Proof.
  assert (Hnew : CacheData.files (ScanCache.cache twoEntries) !! "/c" = None)
    by (vm_compute; reflexivity).
  split; [reflexivity|]. split; [exact Hnew|].
  exact (ScanCacheFacts.set_then_remove twoEntries "/c" "hc" [] 5000 eq_refl Hnew).
Defined.


Lemma pruning_two_entries_twice :
  ∃ c', ScanCache.prune twoEntries {["/a"]} ScanCache.DEFAULT_MAX_AGE_MS 4000 = Some (c', 1%nat)
        ∧ ScanCache.prune c' {["/a"]} ScanCache.DEFAULT_MAX_AGE_MS 4000 = Some (c', 0%nat).
Proof.
  eexists. split; [vm_compute; reflexivity|].
  eapply ScanCacheFacts.prune_twice
    with (c := twoEntries) (existingFiles := {["/a"]} : gset string)
         (maxAgeMs := ScanCache.DEFAULT_MAX_AGE_MS) (now := 4000%Z) (n := 1%nat).
  vm_compute. reflexivity.
Defined.

Lemma pruning_two_entries_marks_dirty :
  ∃ c', ScanCache.prune (ScanCache.with_isDirty twoEntries false) {["/a"]}
          ScanCache.DEFAULT_MAX_AGE_MS 4000 = Some (c', 1%nat)
        ∧ ScanCache.isDirty c' = true.
Proof.
  eexists. split; [vm_compute; reflexivity|].
  edestruct ScanCacheFacts.prune_reports_change
    with (c := ScanCache.with_isDirty twoEntries false) (existingFiles := {["/a"]} : gset string)
         (maxAgeMs := ScanCache.DEFAULT_MAX_AGE_MS) (now := 4000%Z) (n := 1%nat)
    as (_ & Hdirty & _).
  - vm_compute. reflexivity.
  - apply Hdirty. constructor.
Defined.

Lemma progress_of_interleaved_run :
  ∃ o, RuleEngine.runRulesOnFiles cached paths interleaved 20 true = Some o
       ∧ RuleEngine.calls o = [(1, 4); (2, 4); (3, 4); (4, 4)]%nat.
Proof.
  eexists. split; [vm_compute; reflexivity|].
  apply (RuleEngineFacts.progress_counts_up cached paths interleaved 20 true).
  vm_compute. reflexivity.
Defined.

Lemma counters_of_interleaved_run :
  ∃ o, RuleEngine.runRulesOnFiles cached paths interleaved 20 true = Some o
       ∧ (default 0 (ScanResult.skippedFiles (RuleEngine.result o))
          + default 0 (ScanResult.cachedFiles (RuleEngine.result o))
          ≤ ScanResult.scannedFiles (RuleEngine.result o))%nat.
Proof.
  eexists. split; [vm_compute; reflexivity|].
  edestruct (RuleEngineFacts.counters_are_bounded cached paths interleaved 20 true)
    as (_ & Hsum & _); [vm_compute; reflexivity|exact Hsum].
Defined.

Lemma configuration_after_interleaved_run :
  ∃ o, RuleEngine.runRulesOnFiles cached paths interleaved 20 true = Some o
       ∧ RuleEngine.ruleGroups (RuleEngine.after o) = RuleEngine.ruleGroups cached
       ∧ RuleEngine.concurrency (RuleEngine.after o) = 10%Z.
Proof.
  eexists. split; [vm_compute; reflexivity|].
  edestruct (RuleEngineFacts.run_keeps_configuration cached paths interleaved 20 true)
    as (Hgroups & _ & _ & Hconc & _); [vm_compute; reflexivity|].
  split; [exact Hgroups|]. rewrite Hconc. reflexivity.
Defined.

Lemma warmed_is_warm : RuleEngine.warm warmed paths.
Proof.
  eexists. split; [reflexivity|].
  intros filePath fileContent Hin Hread.
  repeat (apply elem_of_cons in Hin as [->|Hin]).
  - injection Hread as <-. vm_compute. reflexivity.
  - discriminate Hread.
  - injection Hread as <-. vm_compute. reflexivity.
  - injection Hread as <-. vm_compute. reflexivity.
  - apply not_elem_of_nil in Hin. destruct Hin.
Defined.

Lemma warmed_run_counts_hits :
  RuleEngine.warm warmed paths
  ∧ ∃ o, RuleEngine.runRulesOnFiles warmed paths interleaved 20 true = Some o
         ∧ ScanResult.cachedFiles (RuleEngine.result o) = Some 3%nat.
Proof.
  split; [exact warmed_is_warm|].
  eexists. split; [vm_compute; reflexivity|].
  edestruct (RuleEngineFacts.warm_run_is_all_hits warmed paths interleaved 20 true)
    as [Hcached _]; [exact warmed_is_warm|vm_compute; reflexivity|].
  rewrite Hcached. reflexivity.
Defined.

Lemma warmed_run_without_rules :
  RuleEngine.warm warmed paths
  ∧ RuleEngine.cache (RuleEngine.with_cache engine (RuleEngine.cache warmed))
    = RuleEngine.cache warmed
  ∧ ∃ o o',
      RuleEngine.runRulesOnFiles warmed paths interleaved 20 true = Some o
      ∧ RuleEngine.runRulesOnFiles
          (RuleEngine.with_cache engine (RuleEngine.cache warmed))
          paths (RuleEngine.inOrder 4 5) 20 true = Some o'
      ∧ ScanResult.findings (RuleEngine.result o')
        = ScanResult.findings (RuleEngine.result o).
Proof.
  split; [exact warmed_is_warm|]. split; [reflexivity|].
  eexists _, _. split; [vm_compute; reflexivity|]. split; [vm_compute; reflexivity|].
  eapply (RuleEngineFacts.warm_run_ignores_rules warmed
            (RuleEngine.with_cache engine (RuleEngine.cache warmed)) paths
            interleaved (RuleEngine.inOrder 4 5) 20 20 true true).
  - exact warmed_is_warm.
  - reflexivity.
  - vm_compute. reflexivity.
  - vm_compute. reflexivity.
Defined.

Lemma second_interleaved_run :
  ∃ c0 o o',
    RuleEngine.cache cached = Some c0
    ∧ ScanCache.enabled c0 = true
    ∧ RuleEngine.runRulesOnFiles cached paths interleaved 20 true = Some o
    ∧ RuleEngine.runRulesOnFiles (RuleEngine.after o) paths
        (RuleEngine.inOrder 4 30) 40 true = Some o'
    ∧ ScanResult.findings (RuleEngine.result o') = ScanResult.findings (RuleEngine.result o)
    ∧ ScanResult.cachedFiles (RuleEngine.result o') = Some 3%nat.
Proof.
  eexists _, _, _. split; [reflexivity|]. split; [reflexivity|].
  split; [vm_compute; reflexivity|]. split; [vm_compute; reflexivity|].
  edestruct (@RuleEngineFacts.second_run_hits_cache sample)
    with (e := cached) (filePaths := paths) (schedule := interleaved)
         (schedule' := RuleEngine.inOrder 4 30) (saveAt := 20%Z) (saveAt' := 40%Z)
         (writeOk := true) (writeOk' := true) as (Hfindings & Hcached & _).
  - reflexivity.
  - reflexivity.
  - vm_compute. reflexivity.
  - vm_compute. reflexivity.
  - split; [exact Hfindings|]. rewrite Hcached. reflexivity.
Defined.

Lemma rescan_after_clearCache :
  let files := ["/app/src/App.js"; "/nonexistent/file.js"; "/app/src/util.ts"] in
  NoDup files
  ∧ RuleEngine.cachedFiles warmed = 0%nat
  ∧ ∃ o o' o'',
      RuleEngine.runRulesOnFiles warmed files (RuleEngine.inOrder 3 5) 60 true = Some o''
      ∧ ScanResult.cachedFiles (RuleEngine.result o'') = Some 2%nat
      ∧ RuleEngine.runRulesOnFiles (RuleEngine.clearCache warmed 50 50 51 true) files
          (RuleEngine.inOrder 3 5) 60 true = Some o
      ∧ RuleEngine.runRulesOnFiles (RuleEngine.disableCache warmed) files
          (RuleEngine.inOrder 3 5) 60 true = Some o'
      ∧ ScanResult.findings (RuleEngine.result o) = ScanResult.findings (RuleEngine.result o')
      ∧ ScanResult.cachedFiles (RuleEngine.result o) = None.
Proof.
  intros files.
  assert (Hnd : NoDup files) by (apply (bool_decide_unpack _); vm_compute; exact I).
  split; [exact Hnd|]. split; [reflexivity|].
  eexists _, _, _. split; [vm_compute; reflexivity|]. split; [vm_compute; reflexivity|].
  split; [vm_compute; reflexivity|]. split; [vm_compute; reflexivity|].
  edestruct (RuleEngineFacts.clearCache_forces_rescan warmed 50 50 51 true files
               (RuleEngine.inOrder 3 5) (RuleEngine.inOrder 3 5) 60 60 true true)
    as [Hfindings Hcached].
  - vm_compute. reflexivity.
  - vm_compute. reflexivity.
  - split; [exact Hfindings|exact (Hcached Hnd)].
Defined.

Lemma project_run_of_sample :
  ∃ o, RuleEngine.runRulesOnProject engine "/app" (RuleEngine.inOrder 3 5) 20 true = Some o
       ∧ ScanResult.scannedFiles (RuleEngine.result o) = 3%nat
       ∧ RuleEngine.calls o = [(1, 3); (2, 3); (3, 3)]%nat.
Proof.
  eexists. split; [vm_compute; reflexivity|].
  edestruct (RuleEngineFacts.project_run_covers_buckets engine "/app"
               (RuleEngine.inOrder 3 5) 20 true) as (_ & Hscanned & Hcalls).
  - vm_compute. reflexivity.
  - split; [exact Hscanned|exact Hcalls].
Defined.


Lemma stale_cache_file_is_ignored :
  (∀ filePath entry, CacheData.files staleData !! filePath = Some entry →
                     CacheEntry.version entry ≠ "1.0.0")
  ∧ ∃ o o',
      RuleEngine.runRulesOnFiles
        (RuleEngine.enableCache engine "/app" "1.0.0" (ScanCache.Stored staleData) 1 1 2 2)
        paths interleaved 20 true = Some o
      ∧ RuleEngine.runRulesOnFiles (RuleEngine.disableCache engine) paths
          (RuleEngine.inOrder 4 5) 20 true = Some o'
      ∧ ScanResult.findings (RuleEngine.result o) = ScanResult.findings (RuleEngine.result o').
Proof.
  assert (Hstale : ∀ filePath entry, CacheData.files staleData !! filePath = Some entry →
                                     CacheEntry.version entry ≠ "1.0.0").
  { intros filePath entry Hentry. simpl in Hentry.
    apply lookup_insert_Some in Hentry as [[_ <-]|[_ Hentry]]; [discriminate|].
    rewrite lookup_empty in Hentry. discriminate Hentry. }
  split; [exact Hstale|].
  eexists _, _. split; [vm_compute; reflexivity|]. split; [vm_compute; reflexivity|].
  eapply (RuleEngineFacts.other_version_forces_rescan engine staleData "/app" "1.0.0"
            1 1 2 2 paths interleaved (RuleEngine.inOrder 4 5) 20 20 true true).
  - exact Hstale.
  - vm_compute. reflexivity.
  - vm_compute. reflexivity.
Defined.

End Examples.
